(** * IPKCP client: the command line, the session and the interactive loop

    A shallow embedding of [src/main.cpp].  The program parses its options
    with [getopt], builds one [IPKCPClient], connects it, and then relays
    lines of standard input to the server until end of input, an interrupt,
    a failed [send] or an empty [recv].

    Standard input, the interrupt flag and the two output streams are
    explicit: a run is a function of the argument vector, of the bytes on
    standard input and of the moments at which SIGINT is handled, and it
    yields an exit code together with the ordered list of everything the
    process did towards the outside (calls on the client, text written). *)

From Stdlib Require Import ZArith List String Ascii Bool Lia.
Import ListNotations.

#[local] Open Scope string_scope.
#[local] Open Scope Z_scope.

(** ** Text helpers *)

Definition newline : ascii := ascii_of_nat 10.

(** [std::endl] written to a stream: a line feed (the flush is not observable
    here). *)
Definition endl : string := String newline EmptyString.

Definition is_empty (s : string) : bool :=
  match s with
  | EmptyString => true
  | String _ _ => false
  end.

(** ** [atoi]

    glibc's [atoi] is [(int) strtol (nptr, NULL, 10)]: blanks are skipped,
    one optional sign is read, then the longest run of decimal digits; the
    value saturates at the bounds of [long] and is then cut to 32 bits. *)

Definition isspace (c : ascii) : bool :=
  let n := nat_of_ascii c in
  (Nat.eqb n 32 || (Nat.leb 9 n && Nat.leb n 13))%bool.

Definition digit_of (c : ascii) : option Z :=
  let n := nat_of_ascii c in
  if (Nat.leb 48 n && Nat.leb n 57)%bool then Some (Z.of_nat n - 48) else None.

Fixpoint skip_spaces (s : string) : string :=
  match s with
  | String c r => if isspace c then skip_spaces r else s
  | EmptyString => s
  end.

Fixpoint digits_value (acc : Z) (s : string) : Z :=
  match s with
  | String c r =>
      match digit_of c with
      | Some d => digits_value (10 * acc + d) r
      | None => acc
      end
  | EmptyString => acc
  end.

Definition LONG_MAX : Z := 2 ^ 63 - 1.
Definition LONG_MIN : Z := - 2 ^ 63.
Definition INT_MAX : Z := 2 ^ 31 - 1.
Definition INT_MIN : Z := - 2 ^ 31.

Definition saturate_long (z : Z) : Z := Z.max LONG_MIN (Z.min LONG_MAX z).

(** Conversion of a [long] to [int]: the low 32 bits, read as signed. *)
Definition to_int (z : Z) : Z := (z + 2 ^ 31) mod 2 ^ 32 - 2 ^ 31.

Definition strtol10 (s : string) : Z :=
  match skip_spaces s with
  | String c r =>
      if Ascii.eqb c "-" then saturate_long (- digits_value 0 r)
      else if Ascii.eqb c "+" then saturate_long (digits_value 0 r)
      else saturate_long (digits_value 0 (String c r))
  | EmptyString => saturate_long 0
  end.

Definition atoi (s : string) : Z := to_int (strtol10 s).

(** ** [getopt] with the option string ["h:p:m:"]

    Every known option takes an argument.  The scan follows glibc's default
    behaviour: an element that is not an option is stepped over, ["--"] ends
    the scan, an option's argument is the rest of its element when there is
    one and the next element otherwise.  An unknown option character and a
    missing argument both make [getopt] return ['?']; since [main] leaves
    [opterr] alone, [getopt] then also writes its own complaint to standard
    error (see [getopt_complaints] below). *)

Inductive GetoptResult : Type :=
| Opt (c : ascii) (optarg : string)
| Unrecognised.

Definition takes_argument (c : ascii) : bool :=
  (Ascii.eqb c "h" || Ascii.eqb c "p" || Ascii.eqb c "m")%bool.

(** The option characters of one element (its leading dash removed), given
    the element that follows.  The boolean tells whether that next element
    was consumed as an argument. *)
Fixpoint scan_element (chars : string) (next : option string)
  : list GetoptResult * bool :=
  match chars with
  | EmptyString => ([], false)
  | String c cs =>
      if takes_argument c then
        match cs with
        | String _ _ => ([Opt c cs], false)
        | EmptyString =>
            match next with
            | Some a => ([Opt c a], true)
            | None => ([Unrecognised], false)
            end
        end
      else
        let '(rs, used) := scan_element cs next in
        (Unrecognised :: rs, used)
  end.

Fixpoint getopt_scan (args : list string) : list GetoptResult :=
  match args with
  | [] => []
  | a :: rest =>
      if String.eqb a "--" then []
      else
        match a with
        | String "-" (String c cs) =>
            let '(rs, used) := scan_element (String c cs) (hd_error rest) in
            if used then
              match rest with
              | _ :: rest' => (rs ++ getopt_scan rest')%list
              | [] => rs
              end
            else (rs ++ getopt_scan rest)%list
        | _ => getopt_scan rest
        end
  end.

(** ** The options of [main] *)

Record Options : Type := mkOptions {
  port : Z;
  hostname : string;
  protocol : string
}.

Definition no_options : Options :=
  {| port := 0; hostname := ""; protocol := "" |}.

(** One turn of the [switch] inside the option loop; [None] is the
    [default] branch, which prints the usage line and returns. *)
Definition apply_option (o : Options) (r : GetoptResult) : option Options :=
  match r with
  | Opt c optarg =>
      if Ascii.eqb c "h" then
        Some {| port := port o; hostname := optarg; protocol := protocol o |}
      else if Ascii.eqb c "p" then
        Some {| port := atoi optarg; hostname := hostname o;
                protocol := protocol o |}
      else if Ascii.eqb c "m" then
        Some {| port := port o; hostname := hostname o; protocol := optarg |}
      else None
  | Unrecognised => None
  end.

Fixpoint parse_options (rs : list GetoptResult) (o : Options)
  : option Options :=
  match rs with
  | [] => Some o
  | r :: rs' =>
      match apply_option o r with
      | Some o' => parse_options rs' o'
      | None => None
      end
  end.

Definition usage : string :=
  "  Usage: ./ipkcpc -h <host> -p <port> -m <mode>".

Inductive Validation : Type :=
| Accepted (o : Options)
| Rejected (message : string).

Definition validate (o : Options) : Validation :=
  if is_empty (hostname o) then
    Rejected ("!ERR! Host not specified!" ++ endl ++ usage ++ endl)
  else if port o =? 0 then
    Rejected ("!ERR! Port not specified!" ++ endl ++ usage ++ endl)
  else if is_empty (protocol o) then
    Rejected ("!ERR! Mode not specified!" ++ endl ++ usage ++ endl)
  else if (negb (String.eqb (protocol o) "tcp")
           && negb (String.eqb (protocol o) "udp"))%bool then
    Rejected ("!ERR! Invalid mode, expected tcp or udp!" ++ endl
              ++ usage ++ endl)
  else Accepted o.

(** *** What [getopt] writes when it returns ['?']

    glibc's two complaints, each naming the program ([argv[0]]) and the
    option character at fault.  [getopt_complaints] walks the vector as
    [getopt_scan] does and lists one complaint for every ['?'] returned, in
    order. *)

Inductive Complaint : Type :=
| InvalidOption (c : ascii)
| MissingArgument (c : ascii).

Definition complaint_text (program : string) (k : Complaint) : string :=
  match k with
  | InvalidOption c =>
      program ++ ": invalid option -- '" ++ String c "'" ++ endl
  | MissingArgument c =>
      program ++ ": option requires an argument -- '" ++ String c "'" ++ endl
  end.

Fixpoint element_complaints (chars : string) (next : option string)
  : list Complaint :=
  match chars with
  | EmptyString => []
  | String c cs =>
      if takes_argument c then
        match cs with
        | String _ _ => []
        | EmptyString =>
            match next with
            | Some _ => []
            | None => [MissingArgument c]
            end
        end
      else InvalidOption c :: element_complaints cs next
  end.

Fixpoint getopt_complaints (args : list string) : list Complaint :=
  match args with
  | [] => []
  | a :: rest =>
      if String.eqb a "--" then []
      else
        match a with
        | String "-" (String c cs) =>
            let ks := element_complaints (String c cs) (hd_error rest) in
            if snd (scan_element (String c cs) (hd_error rest)) then
              match rest with
              | _ :: rest' => (ks ++ getopt_complaints rest')%list
              | [] => ks
              end
            else (ks ++ getopt_complaints rest)%list
        | _ => getopt_complaints rest
        end
  end.

(** [main] returns at the first ['?'], so only the first complaint is ever
    written. *)
Definition getopt_message (argv : list string) : string :=
  match getopt_complaints (tl argv) with
  | k :: _ => complaint_text (hd EmptyString argv) k
  | [] => EmptyString
  end.

(** Lines 59-105: the argument vector (with [argv[0]] in front) to either
    the validated options or the text that ends up on standard error: on a
    ['?'], [getopt]'s complaint followed by the usage line of line 76. *)
Definition command_line (argv : list string) : Validation :=
  match parse_options (getopt_scan (tl argv)) no_options with
  | None => Rejected (getopt_message argv ++ usage ++ endl)
  | Some o => validate o
  end.

(** ** The session object

    [main.cpp] uses the class [IPKCPClient] through its constructor, the
    getter [get_state], the public field [error_msg] and the four calls
    [connect], [send], [recv] and [disconnect].  The class itself lives in
    [client.hpp] / [client.cpp]; here it is an interface, and a value of the
    carrier type stands for the object together with whatever sits behind
    its socket. *)

(** Modelled from the spec: the enumeration [IPKCPCState] is declared in
    [client.hpp], which is not among the sources.  Section 3 of the
    specification lists its values; [main.cpp] names [UP], [DOWN] and
    [ERRORED]. *)
Inductive IPKCPCState : Type := INIT | UP | DOWN | ERRORED.

Definition state_eqb (a b : IPKCPCState) : bool :=
  match a, b with
  | INIT, INIT | UP, UP | DOWN, DOWN | ERRORED, ERRORED => true
  | _, _ => false
  end.

Inductive SockType : Type := SOCK_STREAM | SOCK_DGRAM.

Class IPKCPClient (C : Type) : Type := {
  construct : Z -> string -> SockType -> C;
  get_state : C -> IPKCPCState;
  error_msg : C -> string;
  connect : C -> bool * C;
  send : C -> string -> Z * C;
  recv : C -> string * C;
  disconnect : C -> string * C
}.

(** ** Standard input *)

Record istream : Type := mkIstream {
  eofbit : bool;
  failbit : bool;
  pending : string          (* the bytes not yet extracted *)
}.

Definition eof (i : istream) : bool := eofbit i.

(** Characters up to the first line feed, which is extracted and dropped;
    the boolean is set when the end of the input was hit instead. *)
Fixpoint read_line (s : string) : string * string * bool :=
  match s with
  | EmptyString => (EmptyString, EmptyString, true)
  | String c r =>
      if Ascii.eqb c newline then (EmptyString, r, false)
      else let '(l, r', e) := read_line r in (String c l, r', e)
  end.

(** [std::getline (std::cin, input)] on a fresh, empty [input]. *)
Definition getline (i : istream) : string * istream :=
  if (eofbit i || failbit i)%bool then
    (EmptyString, {| eofbit := eofbit i; failbit := true; pending := pending i |})
  else
    let '(l, r, e) := read_line (pending i) in
    (l, {| eofbit := e; failbit := (e && is_empty l)%bool; pending := r |}).

(** ** What a run does, in order *)

Inductive Method : Type :=
| Connect
| Send (text : string)
| Recv
| Disconnect.

(** A call on the client is logged with the state the session was in when
    the call was made.  [Stdout] and [Stderr] stand for a stretch of text
    that reaches the stream with nothing else happening in between, be it
    written by one statement or by several. *)
Inductive Event : Type :=
| Construct (p : Z) (host : string) (kind : SockType)
| Call (m : Method) (at_state : IPKCPCState)
| Stdout (text : string)
| Stderr (text : string).

Definition EXIT_SUCCESS : Z := 0.
Definition EXIT_FAILURE : Z := 1.

Inductive Flow : Type := Continue | Break.

Section Program.

Context {C : Type} `{IPKCPClient C}.

(** The process while it is inside the loop: the client object, standard
    input, the flag [quit], and what it has done so far.  [sigint] is the
    schedule of interrupts: for each iteration to come, whether SIGINT is
    handled between the previous [quit.load()] (or the start of the program)
    and the next one.  What a signal does to a read or a socket call in
    progress is the operating system's and the client's business; here the
    handler only sets the flag. *)
Record Proc : Type := mkProc {
  client : C;
  cin : istream;
  quit : bool;
  sigint : list bool;
  log : list Event
}.

(** Lines 34-37: the handler stores [true] in the flag, whatever it held. *)
Definition signal_handler (flag : bool) : bool := true.

(** Lines 123-157: one pass through the loop body. *)
Definition iteration (p : Proc) : Flow * Proc :=
  let '(input, cin1, quit1) :=
    if eof (cin p) then (EmptyString, cin p, true)
    else let '(l, i) := getline (cin p) in (l, i, quit p) in
  let quit2 := if hd false (sigint p) then signal_handler quit1 else quit1 in
  let later := tl (sigint p) in
  if quit2 then
    let '(status, c1) := disconnect (client p) in
    (Break, mkProc c1 cin1 quit2 later
              (log p ++ [Call Disconnect (get_state (client p)); Stdout status])%list)
  else if is_empty input then
    (Continue, mkProc (client p) cin1 quit2 later (log p))
  else
    let '(n, c1) := send (client p) input in
    let log1 := (log p ++ [Call (Send input) (get_state (client p))])%list in
    if n <? 0 then (Break, mkProc c1 cin1 quit2 later log1)
    else
      let '(response, c2) := recv c1 in
      let log2 := (log1 ++ [Call Recv (get_state c1)])%list in
      if is_empty response then (Break, mkProc c2 cin1 quit2 later log2)
      else (Continue, mkProc c2 cin1 quit2 later (log2 ++ [Stdout response])%list).

(** Lines 122-158: the [while] loop.  [None] means the fuel ran out. *)
Fixpoint communicate (fuel : nat) (p : Proc) : option Proc :=
  if state_eqb (get_state (client p)) UP then
    match fuel with
    | O => None
    | S fuel' =>
        match iteration p with
        | (Continue, p') => communicate fuel' p'
        | (Break, p') => Some p'
        end
    end
  else Some p.

Record Outcome : Type := mkOutcome {
  exit_code : Z;
  events : list Event;
  session : option C       (* the client object at exit, if one was built *)
}.

Definition report (c : C) : Event := Stderr ("!ERR! " ++ error_msg c ++ endl).

(** Lines 160-166. *)
Definition finish (p : Proc) : Outcome :=
  if negb (state_eqb (get_state (client p)) DOWN) then
    mkOutcome EXIT_FAILURE (log p ++ [report (client p)])%list (Some (client p))
  else mkOutcome EXIT_SUCCESS (log p) (Some (client p)).

(** Iterations that always suffice for an input of the given size. *)
Definition enough (input : string) : nat := S (S (String.length input)).

(** Line 109: [protocol == "tcp" ? SOCK_STREAM : SOCK_DGRAM]. *)
Definition socket_kind (o : Options) : SockType :=
  if String.eqb (protocol o) "tcp" then SOCK_STREAM else SOCK_DGRAM.

(** Lines 107-166, from the validated options on. *)
Definition run_session (o : Options) (input : string) (interrupts : list bool)
  : option Outcome :=
  let kind := socket_kind o in
  let c0 := construct (port o) (hostname o) kind in
  let ev0 := [Construct (port o) (hostname o) kind] in
  if state_eqb (get_state c0) ERRORED then
    Some (mkOutcome EXIT_FAILURE (ev0 ++ [report c0])%list (Some c0))
  else
    let '(ok, c1) := connect c0 in
    let ev1 := (ev0 ++ [Call Connect (get_state c0)])%list in
    if (negb ok || state_eqb (get_state c1) ERRORED)%bool then
      Some (mkOutcome EXIT_FAILURE (ev1 ++ [report c1])%list (Some c1))
    else
      option_map finish
        (communicate (enough input)
           (mkProc c1 (mkIstream false false input) false interrupts ev1)).

Definition main (argv : list string) (input : string) (interrupts : list bool)
  : option Outcome :=
  match command_line argv with
  | Rejected message => Some (mkOutcome EXIT_FAILURE [Stderr message] None)
  | Accepted o => run_session o input interrupts
  end.

End Program.

Arguments Proc C : clear implicits.
Arguments Outcome C : clear implicits.

(** ** The contract of the session, as the specification words it *)

Section Contract.

Context {C : Type} `{IPKCPClient C}.

(** Modelled from the spec: [connect] is implemented in [client.cpp], which
    is not among the sources.  Section 4.2: "On any Transport Endpoint
    failure, transitions to ERRORED, records the message, returns
    failure." *)
Definition connect_failure_errors : Prop :=
  forall c : C, fst (connect c) = false -> get_state (snd (connect c)) = ERRORED.

(** Modelled from the spec: [send] is implemented in [client.cpp].
    Section 4.2: "On failure, transitions to ERRORED and records the
    message; returns the negative/error result". *)
Definition send_failure_errors : Prop :=
  forall (c : C) (text : string),
    get_state c = UP -> fst (send c text) < 0 ->
    get_state (snd (send c text)) = ERRORED
    /\ is_empty (error_msg (snd (send c text))) = false.

(** Modelled from the spec: [send] is implemented in [client.cpp].  The
    state machine of section 4.2 leaves [UP] only through [disconnect] or
    through a failing [send] / [receive], so a [send] that does not fail
    stays in [UP]. *)
Definition send_success_stays_up : Prop :=
  forall (c : C) (text : string),
    get_state c = UP -> 0 <= fst (send c text) ->
    get_state (snd (send c text)) = UP.

(** Modelled from the spec: [disconnect] is implemented in [client.cpp].
    Section 8: "From UP, calling disconnect() always yields state DOWN and
    a non-empty status string". *)
Definition disconnect_reaches_down : Prop :=
  forall c : C,
    get_state c = UP ->
    get_state (snd (disconnect c)) = DOWN
    /\ is_empty (fst (disconnect c)) = false.

End Contract.

(** ** A scripted session *)

(** Modelled from the spec: the class [IPKCPClient] of [client.cpp], which
    is not among the sources.  [Scripted.Session] follows the state machine
    of section 4.2 ([INIT] to [UP] or [ERRORED] on [connect], [UP] to
    [ERRORED] on a failing write, [UP] to [DOWN] on [disconnect], an empty
    [receive] leaving [UP] untouched); the far end is a script that says
    what each exchange will do.  That the constructor itself can fail is
    taken from line 110 of [main.cpp], which tests for it.  Concrete runs
    are evaluated against this client. *)

Module Scripted.

Inductive Exchange : Type :=
| Answer (text : string)     (* the request is written, this text comes back *)
| Silence                    (* the request is written, nothing comes back *)
| WriteError.                (* the write fails *)

Record Wire : Type := mkWire {
  resolves : bool;           (* the constructor can set up its address *)
  accepts : bool;            (* a stream handshake succeeds *)
  script : list Exchange
}.

Record Session : Type := mkSession {
  state : IPKCPCState;
  last_error : string;
  kind : SockType;
  wire : Wire
}.

Definition errored (s : Session) (why : string) : Session :=
  {| state := ERRORED; last_error := why; kind := kind s; wire := wire s |}.

Definition moved (s : Session) (st : IPKCPCState) (rest : list Exchange)
  : Session :=
  {| state := st; last_error := last_error s; kind := kind s;
     wire := {| resolves := resolves (wire s); accepts := accepts (wire s);
                script := rest |} |}.

Definition s_construct (w : Wire) (p : Z) (host : string) (k : SockType)
  : Session :=
  if resolves w then mkSession INIT "" k w
  else mkSession ERRORED "Host not found!" k w.

Definition s_connect (s : Session) : bool * Session :=
  match state s, kind s with
  | INIT, SOCK_DGRAM => (true, moved s UP (script (wire s)))
  | INIT, SOCK_STREAM =>
      if accepts (wire s) then (true, moved s UP (script (wire s)))
      else (false, errored s "Connection failed!")
  | _, _ => (false, errored s "Already connected!")
  end.

Definition s_send (s : Session) (text : string) : Z * Session :=
  match state s with
  | UP =>
      match script (wire s) with
      | WriteError :: _ => (-1, errored s "Sending failed!")
      | _ => (Z.of_nat (String.length text), s)
      end
  | _ => (-1, s)
  end.

Definition s_recv (s : Session) : string * Session :=
  match state s with
  | UP =>
      match script (wire s) with
      | Answer text :: rest => (text, moved s UP rest)
      | _ :: rest => ("", moved s UP rest)
      | [] => ("", s)
      end
  | _ => ("", s)
  end.

Definition s_disconnect (s : Session) : string * Session :=
  match state s with
  | UP => ("BYE" ++ endl, moved s DOWN (script (wire s)))
  | _ => ("", s)
  end.

Definition client (w : Wire) : IPKCPClient Session :=
  {| construct := s_construct w;
     get_state := state;
     error_msg := last_error;
     connect := s_connect;
     send := s_send;
     recv := s_recv;
     disconnect := s_disconnect |}.

(** A far end that resolves, accepts and gives the listed answers. *)
Definition friendly (answers : list string) : Wire :=
  mkWire true true (map Answer answers).

End Scripted.

(** ** Vocabulary of the properties *)

(** The argument the option [c] ends up with: that of its last occurrence
    among what [getopt] returned. *)
Fixpoint last_optarg (c : ascii) (rs : list GetoptResult) : option string :=
  match rs with
  | [] => None
  | r :: rs' =>
      match last_optarg c rs' with
      | Some v => Some v
      | None =>
          match r with
          | Opt c' v => if Ascii.eqb c' c then Some v else None
          | Unrecognised => None
          end
      end
  end.

Definition or_default {A : Type} (o : option A) (d : A) : A :=
  match o with
  | Some v => v
  | None => d
  end.

Definition has_usage_line (text : string) : Prop :=
  exists before, text = before ++ usage ++ endl.

Definition missing (c : ascii) (argv : list string) : Prop :=
  last_optarg c (getopt_scan (tl argv)) = None.

Definition mode_is (argv : list string) (v : string) : Prop :=
  last_optarg "m" (getopt_scan (tl argv)) = Some v.

Section LoopVocabulary.

Context {C : Type} `{IPKCPClient C}.

(** The line and the stream an iteration works with (lines 125-131). *)
Definition line_read (p : Proc C) : string :=
  if eof (cin p) then "" else fst (getline (cin p)).

Definition cin_after (p : Proc C) : istream :=
  if eof (cin p) then cin p else snd (getline (cin p)).

(** What [quit.load()] on line 134 returns. *)
Definition cancelled (p : Proc C) : bool :=
  (eof (cin p) || quit p || hd false (sigint p))%bool.

Definition asked (p : Proc C) : Event :=
  Call (Send (line_read p)) (get_state (client p)).

(** The client as the constructor leaves it, and the process as it enters
    the loop after a successful [connect]. *)
Definition created (o : Options) : C :=
  construct (port o) (hostname o) (socket_kind o).

Definition entering (o : Options) (input : string) (interrupts : list bool)
  : Proc C :=
  mkProc (snd (connect (created o))) (mkIstream false false input) false
    interrupts
    [Construct (port o) (hostname o) (socket_kind o);
     Call Connect (get_state (created o))].

(** The client object as a run leaves it: as built when construction
    failed (line 110), as [connect] left it when connecting failed (line
    116), and as the loop left it otherwise. *)
Definition final_session (o : Options) (input : string)
    (interrupts : list bool) (c : C) : Prop :=
  if state_eqb (get_state (created o)) ERRORED then c = created o
  else if (negb (fst (connect (created o)))
           || state_eqb (get_state (snd (connect (created o)))) ERRORED)%bool
  then c = snd (connect (created o))
  else exists p',
      communicate (enough input) (entering o input interrupts) = Some p'
      /\ c = client p'.

(** A run that ends well: success code, nothing on standard error. *)
Definition normal_termination (r : Outcome C) : Prop :=
  exit_code r = EXIT_SUCCESS /\ forall text, ~ In (Stderr text) (events r).

End LoopVocabulary.

Definition is_call (e : Event) : bool :=
  match e with
  | Call _ _ => true
  | _ => false
  end.

Definition is_disconnect (e : Event) : bool :=
  match e with
  | Call Disconnect _ => true
  | _ => false
  end.

Definition is_send (e : Event) : bool :=
  match e with
  | Call (Send _) _ => true
  | _ => false
  end.

(** [send] and [recv], the two calls that exchange data with the server. *)
Definition is_request (m : Method) : bool :=
  match m with
  | Send _ | Recv => true
  | Connect | Disconnect => false
  end.

(** Nothing is called on the client once [disconnect] has been. *)
Fixpoint orderly (l : list Event) : bool :=
  match l with
  | [] => true
  | e :: rest =>
      if is_disconnect e then forallb (fun x => negb (is_call x)) rest
      else orderly rest
  end.

(** Events that are not calls on a connected session. *)
Definition harmless (e : Event) : Prop :=
  is_call e = false \/ exists st, e = Call Connect st.

Definition undisconnected (l : list Event) : Prop :=
  forallb (fun e => negb (is_disconnect e)) l = true.

Definition quiet (l : list Event) : Prop :=
  forallb (fun e => negb (is_call e)) l = true.

Fixpoint has_newline (s : string) : bool :=
  match s with
  | EmptyString => false
  | String c r => (Ascii.eqb c newline || has_newline r)%bool
  end.

(** The text after the last line feed of the input: the line that was
    begun and never ended. *)
Fixpoint partial_line (input : string) : string :=
  match input with
  | EmptyString => EmptyString
  | String _ r => if has_newline input then partial_line r else input
  end.

(** A call is made in [UP] if it is one of the two data calls. *)
Definition in_up (e : Event) : Prop :=
  match e with
  | Call m st => is_request m = true -> st = UP
  | _ => True
  end.

(** A decimal number and nothing else: an optional sign, then digits. *)
Fixpoint all_digits (s : string) : bool :=
  match s with
  | EmptyString => true
  | String c r =>
      match digit_of c with
      | Some _ => all_digits r
      | None => false
      end
  end.

Definition numeric (s : string) : bool :=
  match s with
  | EmptyString => false
  | String c r =>
      if (Ascii.eqb c "-" || Ascii.eqb c "+")%bool
      then (negb (is_empty r) && all_digits r)%bool
      else all_digits s
  end.

(** What [atoi] looks at: after blanks and an optional sign, does a digit
    come first? *)
Definition starts_with_digit (s : string) : bool :=
  match s with
  | String c _ =>
      match digit_of c with
      | Some _ => true
      | None => false
      end
  | EmptyString => false
  end.

Definition has_numeric_prefix (s : string) : bool :=
  match skip_spaces s with
  | String c r =>
      if (Ascii.eqb c "-" || Ascii.eqb c "+")%bool then starts_with_digit r
      else starts_with_digit (String c r)
  | EmptyString => false
  end.

Definition port_message : string :=
  "!ERR! Port not specified!" ++ endl ++ usage ++ endl.

(** A stream whose fail flag is only ever raised together with the
    end-of-file flag: all that [getline] can produce from a fresh one. *)
Definition readable (i : istream) : Prop :=
  failbit i = true -> eofbit i = true.

Definition left_to_read (i : istream) : nat :=
  if eofbit i then O else S (String.length (pending i)).

(** ** Sample runs

    Concrete command lines, far ends and loop states at which the model is
    evaluated. *)

Module Sample.

Definition tcp_args : list string :=
  ["./ipkcpc"; "-h"; "localhost"; "-p"; "2023"; "-m"; "tcp"].

Definition tcp_options : Options := mkOptions 2023 "localhost" "tcp".

Definition no_port_args : list string :=
  ["./ipkcpc"; "-h"; "localhost"; "-m"; "tcp"].

Definition port_args (p : string) : list string :=
  ["./ipkcpc"; "-h"; "localhost"; "-p"; p; "-m"; "udp"].

(** A server that answers one request in capitals. *)
Definition shouting : Scripted.Wire := Scripted.friendly ["ABC" ++ endl].

(** A server that went away: nothing comes back. *)
Definition gone : Scripted.Wire := Scripted.friendly [].

(** A socket on which the first write fails. *)
Definition broken : Scripted.Wire :=
  Scripted.mkWire true true [Scripted.WriteError].

(** A host name that does not resolve. *)
Definition unknown_host : Scripted.Wire := Scripted.mkWire false true [].

(** The loop state right after a successful [connect], for a given far end,
    input and schedule of interrupts. *)
Definition after_connect (w : Scripted.Wire) (input : string)
    (interrupts : list bool) : Proc Scripted.Session :=
  @entering _ (Scripted.client w) tcp_options input interrupts.

End Sample.

(** ** Vocabulary for whole runs *)

(** Where a run stands, read off what it has done so far. *)
Inductive Phase : Type :=
| Fresh        (* nothing done yet *)
| Built        (* the client has been constructed *)
| Idle         (* connected; no exchange under way *)
| Asked        (* a request has been sent *)
| Answered     (* the reply has been received *)
| Leaving      (* [disconnect] has been called *)
| Left         (* its status has been printed *)
| Reported.    (* an error text has been written *)

(** What may come next in each phase. *)
Definition advance (ph : Phase) (e : Event) : option Phase :=
  match ph, e with
  | Fresh, Construct _ _ _ => Some Built
  | Fresh, Stderr _ => Some Reported
  | Built, Call Connect _ => Some Idle
  | Built, Stderr _ => Some Reported
  | Idle, Call (Send _) _ => Some Asked
  | Idle, Call Disconnect _ => Some Leaving
  | Idle, Stderr _ => Some Reported
  | Asked, Call Recv _ => Some Answered
  | Asked, Stderr _ => Some Reported
  | Answered, Stdout _ => Some Idle
  | Answered, Stderr _ => Some Reported
  | Leaving, Stdout _ => Some Left
  | Left, Stderr _ => Some Reported
  | _, _ => None
  end.

Fixpoint follow (ph : Phase) (l : list Event) : option Phase :=
  match l with
  | [] => Some ph
  | e :: rest =>
      match advance ph e with
      | Some ph' => follow ph' rest
      | None => None
      end
  end.

Definition is_construct (e : Event) : bool :=
  match e with
  | Construct _ _ _ => true
  | _ => false
  end.

Definition is_connect (e : Event) : bool :=
  match e with
  | Call Connect _ => true
  | _ => false
  end.

Definition is_stderr (e : Event) : bool :=
  match e with
  | Stderr _ => true
  | _ => false
  end.

(** The texts handed to [send], in order. *)
Fixpoint requests (l : list Event) : list string :=
  match l with
  | [] => []
  | Call (Send text) _ :: rest => text :: requests rest
  | _ :: rest => requests rest
  end.

(** The input cut at its line feeds; the last piece is what follows the
    last line feed (possibly nothing). *)
Fixpoint lines (s : string) : list string :=
  match s with
  | EmptyString => [EmptyString]
  | String c r =>
      if Ascii.eqb c newline then EmptyString :: lines r
      else
        match lines r with
        | l :: ls => String c l :: ls
        | [] => [String c EmptyString]
        end
  end.

Definition nonempty_lines (s : string) : list string :=
  filter (fun l => negb (is_empty l)) (lines s).

(** What is still to come from standard input. *)
Definition lines_ahead (i : istream) : list string :=
  if eofbit i then [] else nonempty_lines (pending i).

(** An interrupt schedule without interrupts. *)
Definition undisturbed (interrupts : list bool) : Prop :=
  Forall (fun b => b = false) interrupts.

(** The texts the option checks can write (the port text is
    [port_message]). *)
Definition host_message : string :=
  "!ERR! Host not specified!" ++ endl ++ usage ++ endl.

Definition mode_message : string :=
  "!ERR! Mode not specified!" ++ endl ++ usage ++ endl.

Definition invalid_mode_message : string :=
  "!ERR! Invalid mode, expected tcp or udp!" ++ endl ++ usage ++ endl.

Definition is_unrecognised (r : GetoptResult) : bool :=
  match r with
  | Unrecognised => true
  | Opt _ _ => false
  end.

(** Options that [getopt] can return for the option string ["h:p:m:"]. *)
Definition known_option (r : GetoptResult) : Prop :=
  match r with
  | Opt c _ => takes_argument c = true
  | Unrecognised => True
  end.

(** What the loop entered with a given input keeps true: the lines already
    sent and the lines still ahead make up the lines of the input. *)
Definition relays {C : Type} (input : string) (p : Proc C) : Prop :=
  readable (cin p)
  /\ nonempty_lines input = (requests (log p) ++ lines_ahead (cin p))%list.

(** The loop state with no interrupt behind it or ahead of it. *)
Definition calm {C : Type} (p : Proc C) : Prop :=
  quit p = false /\ undisturbed (sigint p) /\ undisconnected (log p).

(** A client whose server is there for every request: in [UP], [send] does
    not fail and [recv] brings a text, and both leave the session [UP]. *)
Definition always_answers {C : Type} `{IPKCPClient C} : Prop :=
  forall (c : C) (text : string),
    get_state c = UP ->
    0 <= fst (send c text)
    /\ get_state (snd (send c text)) = UP
    /\ is_empty (fst (recv (snd (send c text)))) = false
    /\ get_state (snd (recv (snd (send c text)))) = UP.

(** The loop state with SIGINT due within the next [k] requests: after [j]
    more quiet checks the handler will have run. *)
Definition before_interrupt {C : Type} (k : nat) (p : Proc C) : Prop :=
  exists j later,
    sigint p = (repeat false j ++ true :: later)%list
    /\ (List.length (requests (log p)) + j <= k)%nat.

(** ** An echoing session *)

(** Modelled from the spec: the class [IPKCPClient] of [client.cpp], which
    is not among the sources.  [Echo.Session] is the state machine of
    section 4.2 in front of a server that is always there (section 8,
    scenario 1): every request is answered with a text made from it. *)
Module Echo.

Record Session : Type := mkSession {
  state : IPKCPCState;
  heard : string
}.

Definition e_send (s : Session) (text : string) : Z * Session :=
  match state s with
  | UP => (Z.of_nat (String.length text), mkSession UP text)
  | _ => (-1, s)
  end.

Definition e_recv (s : Session) : string * Session :=
  match state s with
  | UP => ("> " ++ heard s ++ endl, s)
  | _ => ("", s)
  end.

Definition e_disconnect (s : Session) : string * Session :=
  match state s with
  | UP => ("BYE" ++ endl, mkSession DOWN (heard s))
  | _ => ("", s)
  end.

Definition client : IPKCPClient Session :=
  {| construct := fun _ _ _ => mkSession INIT "";
     get_state := state;
     error_msg := fun _ => "";
     connect := fun s => (true, mkSession UP (heard s));
     send := e_send;
     recv := e_recv;
     disconnect := e_disconnect |}.

End Echo.

(** * Properties *)

Lemma state_eqb_spec (a b : IPKCPCState) : reflect (a = b) (state_eqb a b).
Proof. destruct a, b; constructor; congruence. Qed.

(** ** The model at work *)

Example atoi_examples :
  atoi "2023" = 2023 /\ atoi "  +7x" = 7 /\ atoi "abc" = 0
  /\ atoi "-5" = -5 /\ atoi "70000" = 70000 /\ atoi "" = 0.
Proof. repeat split. Qed.

Example getopt_examples :
  getopt_scan ["-hlocalhost"; "-p"; "80"; "extra"; "-mudp"]
  = [Opt "h" "localhost"; Opt "p" "80"; Opt "m" "udp"]
  /\ getopt_scan ["-x"; "-h"; "a"] = [Unrecognised; Opt "h" "a"]
  /\ getopt_scan ["-h"] = [Unrecognised]
  /\ getopt_scan ["-p"; "1"; "--"; "-h"; "a"] = [Opt "p" "1"].
Proof. repeat split. Qed.

Example getline_examples :
  getline (mkIstream false false ("ab" ++ endl ++ "c"))
  = ("ab", mkIstream false false "c")
  /\ getline (mkIstream false false "c") = ("c", mkIstream true false "")
  /\ getline (mkIstream false false "") = ("", mkIstream true true "").
Proof. repeat split. Qed.

(** Section 8, scenario 1: the server answers [hello] with [HELLO]; the
    empty line is not sent; at the end of the input the program
    disconnects, prints the status and exits with 0. *)
Example echo_run :
  option_map (fun r => (exit_code r, events r))
    (@main _ (Scripted.client (Scripted.friendly ["HELLO" ++ endl]))
       Sample.tcp_args ("hello" ++ endl ++ endl) [])
  = Some (EXIT_SUCCESS,
          [Construct 2023 "localhost" SOCK_STREAM; Call Connect INIT;
           Call (Send "hello") UP; Call Recv UP; Stdout ("HELLO" ++ endl);
           Call Disconnect UP; Stdout ("BYE" ++ endl)]).
Proof. reflexivity. Qed.

(** ** The command line *)

Lemma is_empty_true (s : string) : is_empty s = true <-> s = "".
Proof. destruct s; simpl; split; congruence. Qed.

Lemma apply_option_cases (o o1 : Options) (r : GetoptResult) :
  apply_option o r = Some o1 ->
  exists v,
    (r = Opt "h" v /\ o1 = mkOptions (port o) v (protocol o))
    \/ (r = Opt "p" v /\ o1 = mkOptions (atoi v) (hostname o) (protocol o))
    \/ (r = Opt "m" v /\ o1 = mkOptions (port o) (hostname o) v).
Proof.
  destruct r as [c v|]; simpl; [|discriminate].
  destruct (Ascii.eqb c "h") eqn:Eh.
  { apply Ascii.eqb_eq in Eh. intros [= <-]. subst c. exists v. auto. }
  destruct (Ascii.eqb c "p") eqn:Ep.
  { apply Ascii.eqb_eq in Ep. intros [= <-]. subst c. exists v. auto. }
  destruct (Ascii.eqb c "m") eqn:Em; [|discriminate].
  apply Ascii.eqb_eq in Em. intros [= <-]. subst c. exists v. auto.
Qed.

Lemma parse_options_fields (rs : list GetoptResult) :
  forall o o',
    parse_options rs o = Some o' ->
    hostname o' = or_default (last_optarg "h" rs) (hostname o)
    /\ port o' = or_default (option_map atoi (last_optarg "p" rs)) (port o)
    /\ protocol o' = or_default (last_optarg "m" rs) (protocol o).
Proof.
  induction rs as [|r rs IH]; intros o o' Hp; simpl in Hp.
  - injection Hp as <-. simpl. auto.
  - destruct (apply_option o r) as [o1|] eqn:Ha; [|discriminate].
    destruct (IH _ _ Hp) as (Hh & Hport & Hm).
    rewrite Hh, Hport, Hm. clear IH Hp Hh Hport Hm.
    apply apply_option_cases in Ha.
    destruct Ha as (v & [[-> ->]|[[-> ->]|[-> ->]]]);
      cbn [last_optarg];
      destruct (last_optarg "h" rs), (last_optarg "p" rs),
        (last_optarg "m" rs); simpl; auto.
Qed.

Lemma validate_rejects_with_usage (o : Options) (text : string) :
  validate o = Rejected text -> has_usage_line text.
Proof.
  unfold validate.
  destruct (is_empty (hostname o)).
  { intros [= <-]. now exists ("!ERR! Host not specified!" ++ endl). }
  destruct (port o =? 0).
  { intros [= <-]. now exists ("!ERR! Port not specified!" ++ endl). }
  destruct (is_empty (protocol o)).
  { intros [= <-]. now exists ("!ERR! Mode not specified!" ++ endl). }
  destruct (negb (protocol o =? "tcp")%string && negb (protocol o =? "udp")%string)%bool.
  { intros [= <-]. now exists ("!ERR! Invalid mode, expected tcp or udp!" ++ endl). }
  discriminate.
Qed.

Lemma command_line_rejects_with_usage (argv : list string) (text : string) :
  command_line argv = Rejected text -> has_usage_line text.
Proof.
  unfold command_line.
  destruct (parse_options _ _).
  - apply validate_rejects_with_usage.
  - intros [= <-]. now exists (getopt_message argv).
Qed.

(** What [validate] lets through. *)
Lemma validate_accepts (o o' : Options) :
  validate o = Accepted o' ->
  o' = o
  /\ hostname o <> ""
  /\ port o <> 0
  /\ (protocol o = "tcp" \/ protocol o = "udp").
Proof.
  unfold validate.
  destruct (is_empty (hostname o)) eqn:Eh; [discriminate|].
  destruct (port o =? 0) eqn:Ep; [discriminate|].
  destruct (is_empty (protocol o)); [discriminate|].
  destruct (protocol o =? "tcp")%string eqn:Et;
    destruct (protocol o =? "udp")%string eqn:Eu; simpl;
    try discriminate; intros [= <-];
    (split; [reflexivity|]);
    (split; [intros E; apply is_empty_true in E; congruence|]);
    (split; [now apply Z.eqb_neq|]).
  - left. now apply String.eqb_eq.
  - left. now apply String.eqb_eq.
  - right. now apply String.eqb_eq.
Qed.

Section CommandLine.

Context {C : Type} `{IPKCPClient C}.

(** C7.  An argument vector that lacks the host, the port or the mode
    option, or whose mode is neither [tcp] nor [udp], makes the program
    write a text ending in the usage line to standard error and exit with
    [EXIT_FAILURE]; that is all the run does, so no session was built. *)
Theorem incomplete_command_line_is_refused
    (argv : list string) (input : string) (interrupts : list bool) :
  missing "h" argv \/ missing "p" argv \/ missing "m" argv
  \/ (exists v, mode_is argv v /\ v <> "tcp" /\ v <> "udp") ->
  exists text,
    has_usage_line text
    /\ main argv input interrupts
       = Some (mkOutcome EXIT_FAILURE [Stderr text] None).
Proof.
  intros Hbad. unfold main.
  destruct (command_line argv) as [o|text] eqn:Ec.
  - exfalso. unfold command_line in Ec.
    destruct (parse_options _ _) as [o1|] eqn:Ep; [|discriminate].
    apply parse_options_fields in Ep. destruct Ep as (Hh & Hp & Hm).
    apply validate_accepts in Ec. destruct Ec as (-> & Nh & Np & Nm).
    unfold missing, mode_is in Hbad. simpl in Hh, Hp, Hm.
    destruct Hbad as [E|[E|[E|(v & E & Nt & Nu)]]];
      rewrite E in *; simpl in *; try congruence.
    all: destruct Nm as [X|X]; rewrite Hm in X; congruence.
  - exists text. split; [|reflexivity].
    now apply command_line_rejects_with_usage with argv.
Qed.

End CommandLine.

(** ** One iteration *)

Section Loop.

Context {C : Type} `{IPKCPClient C}.

Lemma iteration_eq (p : Proc C) :
  iteration p =
    if cancelled p then
      (Break,
       mkProc (snd (disconnect (client p))) (cin_after p) true (tl (sigint p))
         (log p ++ [Call Disconnect (get_state (client p));
                    Stdout (fst (disconnect (client p)))])%list)
    else if is_empty (line_read p) then
      (Continue, mkProc (client p) (cin_after p) false (tl (sigint p)) (log p))
    else
      let sent := send (client p) (line_read p) in
      if fst sent <? 0 then
        (Break,
         mkProc (snd sent) (cin_after p) false (tl (sigint p))
           (log p ++ [asked p])%list)
      else
        let got := recv (snd sent) in
        if is_empty (fst got) then
          (Break,
           mkProc (snd got) (cin_after p) false (tl (sigint p))
             ((log p ++ [asked p])
                ++ [Call Recv (get_state (snd sent))])%list)
        else
          (Continue,
           mkProc (snd got) (cin_after p) false (tl (sigint p))
             (((log p ++ [asked p])
                 ++ [Call Recv (get_state (snd sent))])
                ++ [Stdout (fst got)])%list).
Proof.
  unfold asked, iteration, cancelled, line_read, cin_after, signal_handler.
  destruct (eof (cin p)); simpl.
  - destruct (hd false (sigint p));
      destruct (disconnect (client p)); reflexivity.
  - destruct (getline (cin p)) as [l i]; simpl.
    destruct (quit p); simpl.
    + destruct (hd false (sigint p));
        destruct (disconnect (client p)); reflexivity.
    + destruct (hd false (sigint p)); simpl.
      * destruct (disconnect (client p)); reflexivity.
      * destruct (is_empty l); [reflexivity|].
        destruct (send (client p) l) as [n c1]; simpl.
        destruct (n <? 0); [reflexivity|].
        destruct (recv c1) as [r c2]; simpl.
        destruct (is_empty r); reflexivity.
Qed.

(** *** Termination

    An iteration that does not leave the loop has consumed input: either
    bytes of the pending text or, once that is empty, the step to the
    end-of-file flag. *)

Lemma read_line_shrinks (s : string) :
  s <> "" ->
  (String.length (snd (fst (read_line s))) < String.length s)%nat.
Proof.
  induction s as [|c r IH]; [congruence|]. intros _. simpl.
  destruct (Ascii.eqb c newline); simpl; [lia|].
  destruct r as [|c' r'].
  - simpl. lia.
  - assert (String c' r' <> "") as Hne by congruence.
    specialize (IH Hne).
    destruct (read_line (String c' r')) as [[l r2] e]. simpl in *. lia.
Qed.

Lemma getline_consumes (i : istream) :
  readable i -> eofbit i = false ->
  readable (snd (getline i))
  /\ (left_to_read (snd (getline i)) < left_to_read i)%nat.
Proof.
  intros Hr He. unfold getline, left_to_read, readable in *.
  rewrite He in *. simpl.
  destruct (failbit i); [now discriminate Hr|].
  destruct (pending i) as [|c r] eqn:Ep.
  - simpl. split; [auto | lia].
  - pose proof (read_line_shrinks (String c r)) as Hs.
    destruct (read_line (String c r)) as [[l r2] e]. simpl in *.
    split.
    + destruct e; simpl; [auto | discriminate].
    + destruct e; [lia|]. assert (String c r <> "") by congruence. 
      specialize (Hs H0). lia.
Qed.

Lemma iteration_continues (p p' : Proc C) :
  readable (cin p) ->
  iteration p = (Continue, p') ->
  readable (cin p')
  /\ (left_to_read (cin p') < left_to_read (cin p))%nat.
Proof.
  intros Hr. rewrite iteration_eq.
  unfold cancelled, cin_after.
  destruct (eof (cin p)) eqn:Ee; simpl; [discriminate|].
  destruct (quit p || hd false (sigint p))%bool; [discriminate|].
  pose proof (getline_consumes (cin p) Hr Ee) as Hg.
  destruct (is_empty (line_read p)).
  { intros [= <-]. exact Hg. }
  destruct (fst (send (client p) (line_read p)) <? 0); [discriminate|].
  destruct (is_empty (fst (recv (snd (send (client p) (line_read p))))));
    [discriminate|].
  intros [= <-]. exact Hg.
Qed.

Lemma iteration_breaks_readable (f : Flow) (p p' : Proc C) :
  readable (cin p) -> iteration p = (f, p') -> readable (cin p').
Proof.
  intros Hr. rewrite iteration_eq.
  assert (readable (cin_after p)) as Ha.
  { unfold cin_after. destruct (eof (cin p)) eqn:Ee; [exact Hr|].
    now apply getline_consumes. }
  cbv zeta.
  repeat match goal with
         | |- context [if ?b then _ else _] => destruct b
         end; intros E; inversion E; subst; exact Ha.
Qed.

Lemma communicate_returns (fuel : nat) :
  forall p : Proc C,
    readable (cin p) ->
    (left_to_read (cin p) < fuel)%nat ->
    exists p', communicate fuel p = Some p'.
Proof.
  induction fuel as [|fuel IH]; intros p Hr Hlt; [lia|].
  simpl. destruct (state_eqb (get_state (client p)) UP); [|eauto].
  destruct (iteration p) as [[|] p1] eqn:Ei; [|eauto].
  apply iteration_continues in Ei; [|exact Hr].
  apply IH; [tauto | lia].
Qed.

(** *** Leaving the loop *)

Lemma communicate_break (fuel : nat) (p p' : Proc C) :
  get_state (client p) = UP ->
  iteration p = (Break, p') ->
  communicate (S fuel) p = Some p'.
Proof.
  intros Hup Hi. simpl. rewrite Hup, Hi. reflexivity.
Qed.

Lemma communicate_continue (fuel : nat) (p p' : Proc C) :
  get_state (client p) = UP ->
  iteration p = (Continue, p') ->
  communicate (S fuel) p = communicate fuel p'.
Proof.
  intros Hup Hi. simpl. rewrite Hup, Hi. reflexivity.
Qed.

Lemma communicate_not_up (fuel : nat) (p : Proc C) :
  get_state (client p) <> UP -> communicate fuel p = Some p.
Proof.
  intros Hn. destruct fuel; simpl;
    destruct (state_eqb_spec (get_state (client p)) UP); congruence.
Qed.

(** The log of a loop: a property kept by every iteration that goes on,
    and what it turns into when an iteration breaks out. *)
Lemma communicate_log_rule (Inv Fin : list Event -> Prop) :
  (forall l, Inv l -> Fin l) ->
  (forall p p', get_state (client p) = UP -> Inv (log p) ->
                iteration p = (Continue, p') -> Inv (log p')) ->
  (forall p p', get_state (client p) = UP -> Inv (log p) ->
                iteration p = (Break, p') -> Fin (log p')) ->
  forall fuel p p',
    Inv (log p) -> communicate fuel p = Some p' -> Fin (log p').
Proof.
  intros Hweak Hgo Hstop.
  induction fuel as [|fuel IH]; intros p p' Hinv; simpl;
    destruct (state_eqb_spec (get_state (client p)) UP) as [Hup|Hup];
    try discriminate; try (intros [= <-]; now apply Hweak).
  destruct (iteration p) as [[|] p1] eqn:Ei.
  - apply IH. now apply Hgo with p.
  - intros [= <-]. now apply Hstop with p.
Qed.

End Loop.

(** ** Whole runs *)

Section Run.

Context {C : Type} `{IPKCPClient C}.

Lemma run_session_eq (o : Options) (input : string) (interrupts : list bool) :
  run_session o input interrupts =
    if state_eqb (get_state (created o)) ERRORED then
      Some (mkOutcome EXIT_FAILURE
              [Construct (port o) (hostname o) (socket_kind o);
               report (created o)]
              (Some (created o)))
    else if (negb (fst (connect (created o)))
             || state_eqb (get_state (snd (connect (created o)))) ERRORED)%bool
    then
      Some (mkOutcome EXIT_FAILURE
              [Construct (port o) (hostname o) (socket_kind o);
               Call Connect (get_state (created o));
               report (snd (connect (created o)))]
              (Some (snd (connect (created o)))))
    else
      option_map finish (communicate (enough input) (entering o input interrupts)).
Proof.
  unfold run_session, entering, created.
  destruct (state_eqb _ ERRORED); [reflexivity|].
  destruct (connect _) as [ok c1]; simpl.
  destruct (negb ok || state_eqb (get_state c1) ERRORED)%bool; reflexivity.
Qed.

Lemma entering_returns (o : Options) (input : string) (interrupts : list bool) :
  exists p', communicate (enough input) (entering o input interrupts) = Some p'.
Proof.
  apply communicate_returns.
  - unfold readable. simpl. discriminate.
  - unfold left_to_read, enough. simpl. lia.
Qed.

Lemma run_session_returns (o : Options) (input : string) (interrupts : list bool) :
  exists r, run_session o input interrupts = Some r.
Proof.
  rewrite run_session_eq.
  destruct (state_eqb _ ERRORED); [eauto|].
  destruct (negb _ || _)%bool; [eauto|].
  destruct (entering_returns o input interrupts) as [p' ->]. simpl. eauto.
Qed.

(** The program always comes to an end and returns an exit code. *)
Lemma main_returns (argv : list string) (input : string) (interrupts : list bool) :
  exists r, main argv input interrupts = Some r.
Proof.
  unfold main. destruct (command_line argv); [|eauto].
  apply run_session_returns.
Qed.

Lemma finish_verdict (p : Proc C) :
  session (finish p) = Some (client p)
  /\ (get_state (client p) <> DOWN ->
      exit_code (finish p) = EXIT_FAILURE
      /\ events (finish p) = (log p ++ [report (client p)])%list)
  /\ (get_state (client p) = DOWN ->
      exit_code (finish p) = EXIT_SUCCESS /\ events (finish p) = log p).
Proof.
  unfold finish.
  destruct (state_eqb_spec (get_state (client p)) DOWN); simpl;
    repeat split; intros; congruence.
Qed.

(** C2.  Every run that gets as far as building a client ends with that
    client in hand, in the state the run left it in.  If that state is not
    [DOWN], the last thing the run does is write ["!ERR! "] followed by the
    client's error message to standard error, and the exit code is
    [EXIT_FAILURE].  The exit code is [EXIT_SUCCESS] only if the state is
    [DOWN]; and, granted that a failing [connect] leaves the session
    [ERRORED] (the session contract), whenever the state is [DOWN]. *)
Theorem exit_status_follows_final_state
    (argv : list string) (o : Options) (input : string)
    (interrupts : list bool) :
  command_line argv = Accepted o ->
  exists r c,
    main argv input interrupts = Some r
    /\ session r = Some c
    /\ final_session o input interrupts c
    /\ (get_state c <> DOWN ->
        exit_code r = EXIT_FAILURE
        /\ exists before,
            events r
            = (before ++ [Stderr ("!ERR! " ++ error_msg c ++ endl)])%list)
    /\ (exit_code r = EXIT_SUCCESS -> get_state c = DOWN)
    /\ (connect_failure_errors ->
        get_state c = DOWN -> exit_code r = EXIT_SUCCESS).
Proof.
  intros Hcl. unfold main. rewrite Hcl, run_session_eq.
  unfold final_session.
  destruct (state_eqb_spec (get_state (created o)) ERRORED) as [He|He].
  { do 2 eexists. split; [reflexivity|]. simpl.
    split; [reflexivity|]. split; [reflexivity|]. split; [|split].
    - intros _. split; [reflexivity|].
      now exists [Construct (port o) (hostname o) (socket_kind o)].
    - discriminate.
    - intros _ Hd. rewrite He in Hd. discriminate. }
  destruct (negb _ || _)%bool eqn:Efail.
  { do 2 eexists. split; [reflexivity|]. simpl.
    split; [reflexivity|]. split; [reflexivity|]. split; [|split].
    - intros _. split; [reflexivity|].
      now exists [Construct (port o) (hostname o) (socket_kind o);
                  Call Connect (get_state (created o))].
    - discriminate.
    - intros Hconnect Hd. exfalso.
      assert (get_state (snd (connect (created o))) = ERRORED) as Hs.
      { apply orb_true_iff in Efail. destruct Efail as [Eok|Est].
        - apply Hconnect. now apply negb_true_iff.
        - now destruct (state_eqb_spec
                          (get_state (snd (connect (created o)))) ERRORED). }
      rewrite Hs in Hd. discriminate. }
  destruct (entering_returns o input interrupts) as [p' Hp']. rewrite Hp'.
  simpl. exists (finish p'), (client p').
  destruct (finish_verdict p') as (Hsess & Hbad & Hgood).
  split; [reflexivity|]. split; [exact Hsess|].
  split; [now exists p'|]. split; [|split].
  - intros Hn. destruct (Hbad Hn) as [-> ->]. split; [reflexivity|].
    now exists (log p').
  - intros Hz.
    destruct (state_eqb_spec (get_state (client p')) DOWN) as [|Hn];
      [assumption|].
    destruct (Hbad Hn) as [Hx _]. rewrite Hx in Hz. discriminate.
  - intros _ Hd. now destruct (Hgood Hd).
Qed.

(** C10.  When the client comes out of its constructor already [ERRORED],
    the program writes ["!ERR! "] and the recorded message to standard
    error and exits with [EXIT_FAILURE]; the run consists of the
    construction and that message only, so [connect] was never called. *)
Theorem errored_at_construction_is_reported
    (argv : list string) (o : Options) (input : string)
    (interrupts : list bool) :
  command_line argv = Accepted o ->
  get_state (created o) = ERRORED ->
  main argv input interrupts
  = Some (mkOutcome EXIT_FAILURE
            [Construct (port o) (hostname o) (socket_kind o);
             Stderr ("!ERR! " ++ error_msg (created o) ++ endl)]
            (Some (created o))).
Proof.
  intros Hcl He. unfold main. rewrite Hcl, run_session_eq, He. reflexivity.
Qed.

(** *** Rules for the log of a whole run *)

Lemma main_log_rule (Inv Fin : list Event -> Prop) :
  Inv [] ->
  (forall l e, Inv l -> harmless e -> Inv (l ++ [e])%list) ->
  (forall l, Inv l -> Fin l) ->
  (forall l e, Fin l -> is_call e = false -> Fin (l ++ [e])%list) ->
  (forall p p', get_state (client p) = UP -> Inv (log p) ->
                iteration p = (Continue, p') -> Inv (log p')) ->
  (forall p p', get_state (client p) = UP -> Inv (log p) ->
                iteration p = (Break, p') -> Fin (log p')) ->
  forall argv input interrupts,
  exists r, main argv input interrupts = Some r /\ Fin (events r).
Proof.
  intros Hnil Hadd Hweak Hfin Hgo Hstop argv input interrupts.
  assert (forall t, harmless (Stderr t)) as Herr by (now left).
  assert (forall a b c, harmless (Construct a b c)) as Hcons by (now left).
  assert (forall st, harmless (Call Connect st)) as Hconn by (right; eauto).
  unfold main.
  destruct (command_line argv) as [o|text].
  2:{ eexists. split; [reflexivity|]. simpl.
      apply Hweak. apply (Hadd [] (Stderr text)); auto. }
  rewrite run_session_eq.
  set (e0 := Construct (port o) (hostname o) (socket_kind o)).
  set (e1 := Call Connect (get_state (created o))).
  assert (Inv [e0]) as I0 by (apply (Hadd [] e0); auto; apply Hcons).
  assert (Inv [e0; e1]) as I1 by (apply (Hadd [e0] e1); auto; apply Hconn).
  destruct (state_eqb _ ERRORED).
  { eexists. split; [reflexivity|]. simpl.
    apply (Hfin [e0]); auto. }
  destruct (negb _ || _)%bool.
  { eexists. split; [reflexivity|]. simpl.
    apply (Hfin [e0; e1]); auto. }
  destruct (entering_returns o input interrupts) as [p' Hp']. rewrite Hp'.
  simpl. eexists. split; [reflexivity|].
  assert (Fin (log p')) as Hl.
  { exact (communicate_log_rule Inv Fin Hweak Hgo Hstop _
             (entering o input interrupts) p' I1 Hp'). }
  unfold finish. destruct (negb _); simpl; [|exact Hl].
  apply Hfin; auto.
Qed.

(** *** Nothing after [disconnect] *)

Lemma orderly_undisconnected (l x : list Event) :
  undisconnected l -> orderly (l ++ x) = orderly x.
Proof.
  unfold undisconnected. induction l as [|e l IH]; simpl; [reflexivity|].
  intros Hl. apply andb_true_iff in Hl. destruct Hl as [He Hl].
  apply negb_true_iff in He. rewrite He. auto.
Qed.

Lemma orderly_quiet_tail (l x : list Event) :
  orderly l = true -> quiet x -> orderly (l ++ x) = true.
Proof.
  unfold quiet. induction l as [|e l IH]; simpl; intros Hl Hx.
  - induction x as [|y x IHx]; simpl in *; [reflexivity|].
    apply andb_true_iff in Hx. destruct Hx as [Hy Hx].
    destruct (is_disconnect y); [exact Hx | auto].
  - destruct (is_disconnect e); [|auto].
    rewrite forallb_app, Hl, Hx. reflexivity.
Qed.

Lemma orderly_split (before after : list Event) (st : IPKCPCState) :
  orderly (before ++ Call Disconnect st :: after) = true -> quiet after.
Proof.
  unfold quiet. induction before as [|e l IH]; simpl; [auto|].
  destruct (is_disconnect e); [|exact IH].
  rewrite forallb_app. simpl. rewrite andb_false_r. discriminate.
Qed.

Lemma undisconnected_app (l x : list Event) :
  undisconnected l -> undisconnected x -> undisconnected (l ++ x).
Proof.
  unfold undisconnected. intros Hl Hx. now rewrite forallb_app, Hl, Hx.
Qed.

Lemma runs_are_orderly (argv : list string) (input : string)
    (interrupts : list bool) :
  exists r, main argv input interrupts = Some r /\ orderly (events r) = true.
Proof.
  apply (main_log_rule undisconnected (fun l => orderly l = true)).
  - reflexivity.
  - intros l e Hl [He|[st ->]]; apply undisconnected_app; auto;
      unfold undisconnected; simpl; [|reflexivity].
    destruct e as [| [] | |]; simpl in *; try reflexivity; discriminate.
  - intros l Hl. rewrite <- (app_nil_r l). now rewrite orderly_undisconnected.
  - intros l e Hl He. apply orderly_quiet_tail; auto.
    unfold quiet. simpl. now rewrite He.
  - intros p p' _ Hl. rewrite iteration_eq. cbv zeta. unfold asked.
    repeat match goal with
           | |- context [if ?b then _ else _] => destruct b
           end; intros E; inversion E; subst; simpl; auto.
    repeat apply undisconnected_app; auto; reflexivity.
  - intros p p' _ Hl. rewrite iteration_eq. cbv zeta. unfold asked.
    repeat match goal with
           | |- context [if ?b then _ else _] => destruct b
           end; intros E; inversion E; subst; simpl;
      repeat rewrite <- app_assoc;
      rewrite orderly_undisconnected by assumption; reflexivity.
Qed.

End Run.

(** ** The loop, claim by claim *)

Section Session.

Context {C : Type} `{IPKCPClient C}.

Lemma iteration_cancelled (p : Proc C) :
  cancelled p = true ->
  iteration p =
    (Break,
     mkProc (snd (disconnect (client p))) (cin_after p) true (tl (sigint p))
       (log p ++ [Call Disconnect (get_state (client p));
                  Stdout (fst (disconnect (client p)))])%list).
Proof.
  intros Hc. now rewrite iteration_eq, Hc.
Qed.

(** C1.  At any point of the loop, if the check on line 134 finds the
    cancellation flag set (end of input seen or SIGINT handled), that
    iteration calls [disconnect], prints its status string and leaves the
    loop, and these two are the only things it does: no [send], no [recv].
    And in every run of the program nothing at all is called on the client
    after a [disconnect]. *)
Theorem cancellation_stops_requests :
  (forall (p : Proc C) (fuel : nat),
      get_state (client p) = UP ->
      cancelled p = true ->
      communicate (S fuel) p
      = Some (mkProc (snd (disconnect (client p))) (cin_after p) true
                (tl (sigint p))
                (log p ++ [Call Disconnect UP;
                           Stdout (fst (disconnect (client p)))])%list))
  /\ (forall (argv : list string) (input : string) (interrupts : list bool),
      exists r,
        main argv input interrupts = Some r
        /\ forall before st after,
            events r = (before ++ Call Disconnect st :: after)%list ->
            forall e, In e after -> is_call e = false).
Proof.
  split.
  - intros p fuel Hup Hc.
    rewrite (communicate_break fuel p _ Hup (iteration_cancelled p Hc)).
    now rewrite Hup.
  - intros argv input interrupts.
    destruct (runs_are_orderly argv input interrupts) as (r & Hr & Ho).
    exists r. split; [exact Hr|].
    intros before st after Hev e He. rewrite Hev in Ho.
    apply orderly_split in Ho. unfold quiet in Ho.
    rewrite forallb_forall in Ho. specialize (Ho e He).
    now apply negb_true_iff in Ho.
Qed.

(** C8.  In every run, granted that a [send] which does not fail leaves the
    session [UP] (the session contract), each [send] and each [recv] is made
    while the session is [UP]. *)
Theorem requests_only_while_up
    (argv : list string) (input : string) (interrupts : list bool) :
  send_success_stays_up ->
  exists r,
    main argv input interrupts = Some r
    /\ forall m st,
        In (Call m st) (events r) -> is_request m = true -> st = UP.
Proof.
  intros Hsend.
  destruct (main_log_rule (Forall in_up) (Forall in_up)) with
    (argv := argv) (input := input) (interrupts := interrupts)
    as (r & Hr & Hall).
  - constructor.
  - intros l e Hl He. apply Forall_app. split; [exact Hl|].
    constructor; [|constructor].
    destruct He as [He|[st ->]]; [|simpl; discriminate].
    destruct e; simpl in *; auto; discriminate.
  - auto.
  - intros l e Hl He. apply Forall_app. split; [exact Hl|].
    constructor; [|constructor]. destruct e; simpl in *; auto; discriminate.
  - intros p p' Hup Hl. rewrite iteration_eq. cbv zeta.
    destruct (cancelled p); [discriminate|].
    destruct (is_empty (line_read p)); [now intros [= <-]|].
    destruct (Z.ltb_spec (fst (send (client p) (line_read p))) 0) as [|Hok];
      [discriminate|].
    destruct (is_empty (fst (recv _))); [discriminate|].
    intros [= <-]. simpl.
    repeat (apply Forall_app; split); auto;
      constructor; try constructor; simpl; auto.
    all: try (intros _; now apply Hsend).
  - intros p p' Hup Hl. rewrite iteration_eq. cbv zeta.
    destruct (cancelled p).
    { intros [= <-]. simpl. apply Forall_app. split; [exact Hl|].
      repeat constructor; simpl; auto; discriminate. }
    destruct (is_empty (line_read p)); [discriminate|].
    destruct (Z.ltb_spec (fst (send (client p) (line_read p))) 0) as [|Hok].
    { intros [= <-]. simpl. apply Forall_app. split; [exact Hl|].
      repeat constructor; simpl; auto. }
    destruct (is_empty (fst (recv _))); [|discriminate].
    intros [= <-]. simpl.
    repeat (apply Forall_app; split); auto;
      constructor; try constructor; simpl; auto.
    all: try (intros _; now apply Hsend).
  - exists r. split; [exact Hr|].
    intros m st Hin. rewrite Forall_forall in Hall. exact (Hall _ Hin).
Qed.

(** C6.  When [send] returns a negative result, the iteration ends the
    loop at once: the [send] is the only thing it did (no [recv], no
    [disconnect]).  By the session contract the session is then [ERRORED]
    with a message recorded, and that message is what the program reports
    before it exits with [EXIT_FAILURE]. *)
Theorem failed_send_stops_loop (p : Proc C) (fuel : nat) :
  send_failure_errors ->
  get_state (client p) = UP ->
  cancelled p = false ->
  is_empty (line_read p) = false ->
  fst (send (client p) (line_read p)) < 0 ->
  exists p',
    communicate (S fuel) p = Some p'
    /\ log p' = (log p ++ [Call (Send (line_read p)) UP])%list
    /\ client p' = snd (send (client p) (line_read p))
    /\ get_state (client p') = ERRORED
    /\ is_empty (error_msg (client p')) = false
    /\ finish p'
       = mkOutcome EXIT_FAILURE
           (log p' ++ [Stderr ("!ERR! " ++ error_msg (client p') ++ endl)])%list
           (Some (client p')).
Proof.
  intros Hlaw Hup Hc Hline Hneg.
  destruct (Hlaw (client p) (line_read p) Hup Hneg) as [Hst Hmsg].
  eexists. split.
  { apply communicate_break; [exact Hup|].
    rewrite iteration_eq, Hc, Hline. cbv zeta.
    apply Z.ltb_lt in Hneg. rewrite Hneg. reflexivity. }
  simpl. unfold asked. rewrite Hup.
  repeat split; auto.
  unfold finish. simpl. rewrite Hst. reflexivity.
Qed.

(** C3, as the program has it.  When [recv] returns an empty text, the
    iteration ends the loop having done the [send] and the [recv] only (no
    [disconnect]), and [main] leaves the session as [recv] left it.  If that
    is [UP] (or anything else than [DOWN]), the program then writes
    ["!ERR! "] and the session's message to standard error and exits with
    [EXIT_FAILURE]: the same report as for an [ERRORED] session. *)
Theorem empty_reply_stops_loop_and_fails (p : Proc C) (fuel : nat) :
  get_state (client p) = UP ->
  cancelled p = false ->
  is_empty (line_read p) = false ->
  0 <= fst (send (client p) (line_read p)) ->
  is_empty (fst (recv (snd (send (client p) (line_read p))))) = true ->
  exists p',
    communicate (S fuel) p = Some p'
    /\ client p' = snd (recv (snd (send (client p) (line_read p))))
    /\ log p'
       = (log p ++ [Call (Send (line_read p)) UP;
                    Call Recv (get_state (snd (send (client p) (line_read p))))])%list
    /\ (get_state (client p') <> DOWN ->
        finish p'
        = mkOutcome EXIT_FAILURE
            (log p' ++ [Stderr ("!ERR! " ++ error_msg (client p') ++ endl)])%list
            (Some (client p'))).
Proof.
  intros Hup Hc Hline Hok Hempty.
  eexists. split.
  { apply communicate_break; [exact Hup|].
    rewrite iteration_eq, Hc, Hline. cbv zeta.
    apply Z.ltb_ge in Hok. rewrite Hok, Hempty. reflexivity. }
  simpl. unfold asked. rewrite Hup, <- app_assoc. simpl.
  repeat split; auto.
  intros Hn. unfold finish. simpl.
  destruct (state_eqb_spec
              (get_state (snd (recv (snd (send (client p) (line_read p))))))
              DOWN); [contradiction | reflexivity].
Qed.

Lemma iteration_sends_line (p : Proc C) :
  cancelled p = false ->
  is_empty (line_read p) = false ->
  exists f p' tail,
    iteration p = (f, p')
    /\ cin p' = cin_after p
    /\ log p'
       = (log p ++ Call (Send (line_read p)) (get_state (client p)) :: tail)%list
    /\ (tail = []
        \/ (exists st, tail = [Call Recv st])
        \/ (exists st text, tail = [Call Recv st; Stdout text])).
Proof.
  intros Hc Hline. rewrite iteration_eq, Hc, Hline.
  cbv zeta. unfold asked.
  destruct (fst (send (client p) (line_read p)) <? 0).
  { do 3 eexists. split; [reflexivity|]. simpl. repeat split; auto. }
  destruct (is_empty (fst (recv _))).
  + do 3 eexists. split; [reflexivity|]. simpl.
    rewrite <- app_assoc. simpl. repeat split; auto. right. left. eauto.
  + do 3 eexists. split; [reflexivity|]. simpl.
    rewrite <- !app_assoc. simpl. repeat split; auto. right. right. eauto.
Qed.

(** C5, as the program has it.  In an iteration whose check on line 134
    finds no cancellation: an empty line makes the iteration do nothing
    and go on; a line that is not empty is sent exactly once, and the
    [send] is followed by nothing, by one [recv], or by one [recv] and the
    printing of its answer. *)
Theorem line_is_sent_once_unless_cancelled (p : Proc C) :
  (cancelled p = false ->
   (is_empty (line_read p) = true ->
    exists p',
      iteration p = (Continue, p')
      /\ log p' = log p /\ client p' = client p)
   /\ (is_empty (line_read p) = false ->
       exists f p' tail,
         iteration p = (f, p')
         /\ log p'
            = (log p ++ Call (Send (line_read p)) (get_state (client p)) :: tail)%list
         /\ (tail = []
             \/ (exists st, tail = [Call Recv st])
             \/ (exists st text, tail = [Call Recv st; Stdout text]))))
  /\ (cancelled p = true ->
      exists p' st status,
        iteration p = (Break, p')
        /\ log p' = (log p ++ [Call Disconnect st; Stdout status])%list).
Proof.
  split.
  - intros Hc. split; intros Hline.
    + rewrite iteration_eq, Hc, Hline.
      eexists. split; [reflexivity|]. simpl. auto.
    + destruct (iteration_sends_line p Hc Hline)
        as (f & p' & tail & Hi & _ & Hlog & Htail).
      now exists f, p', tail.
  - intros Hc. rewrite (iteration_cancelled p Hc).
    do 3 eexists. split; reflexivity.
Qed.

Lemma read_line_unterminated (l : string) :
  has_newline l = false -> read_line l = (l, "", true).
Proof.
  induction l as [|c r IH]; simpl; [reflexivity|].
  destruct (Ascii.eqb c newline); simpl; [discriminate|].
  intros Hr. now rewrite (IH Hr).
Qed.

(** C4, as the program has it.  Granted that [disconnect] takes an [UP]
    session to [DOWN] (the session contract): at any point of the loop, if
    the check on line 134 finds the cancellation flag set, the iteration
    calls [disconnect], prints its status string, does nothing else (the
    line it may have read is dropped), and the program exits with
    [EXIT_SUCCESS].  A last line without line feed, however, is read by the
    [getline] that hits the end of the input, before the end is noticed, and
    is sent like any other line. *)
Theorem cancellation_ends_through_disconnect :
  disconnect_reaches_down ->
  (forall (p : Proc C) (fuel : nat),
      get_state (client p) = UP ->
      cancelled p = true ->
      exists p',
        communicate (S fuel) p = Some p'
        /\ log p'
           = (log p ++ [Call Disconnect UP;
                        Stdout (fst (disconnect (client p)))])%list
        /\ finish p'
           = mkOutcome EXIT_SUCCESS (log p')
               (Some (snd (disconnect (client p)))))
  /\ (forall (p : Proc C) (l : string),
      get_state (client p) = UP ->
      quit p = false ->
      hd false (sigint p) = false ->
      cin p = mkIstream false false l ->
      l <> "" ->
      has_newline l = false ->
      exists f p' tail,
        iteration p = (f, p')
        /\ eofbit (cin p') = true
        /\ log p' = (log p ++ Call (Send l) UP :: tail)%list).
Proof.
  intros Hlaw. split.
  - intros p fuel Hup Hc.
    destruct (Hlaw (client p) Hup) as [Hdown _].
    eexists. split.
    { apply communicate_break; [exact Hup|]. now apply iteration_cancelled. }
    simpl. rewrite Hup. split; [reflexivity|].
    unfold finish. simpl. rewrite Hdown. reflexivity.
  - intros p l Hup Hq Hs Hcin Hne Hnl.
    assert (cancelled p = false) as Hc.
    { unfold cancelled. now rewrite Hcin, Hq, Hs. }
    assert (line_read p = l) as Hline.
    { unfold line_read, getline. rewrite Hcin. simpl.
      now rewrite read_line_unterminated. }
    assert (eofbit (cin_after p) = true) as Heof.
    { unfold cin_after, getline. rewrite Hcin. simpl.
      now rewrite read_line_unterminated. }
    assert (is_empty (line_read p) = false) as Hfull.
    { rewrite Hline. destruct l; [congruence | reflexivity]. }
    destruct (iteration_sends_line p Hc Hfull)
      as (f & p' & tail & Hi & Hcin' & Hlog & _).
    exists f, p', tail. rewrite Hline, Hup in Hlog.
    split; [exact Hi|]. split; [|exact Hlog].
    now rewrite Hcin'.
Qed.

(** *** The port *)

Lemma digits_value_no_digit (acc : Z) (s : string) :
  starts_with_digit s = false -> digits_value acc s = acc.
Proof.
  destruct s as [|c r]; simpl; [reflexivity|].
  destruct (digit_of c); [discriminate | reflexivity].
Qed.

Lemma atoi_without_digits (s : string) :
  has_numeric_prefix s = false -> atoi s = 0.
Proof.
  unfold has_numeric_prefix, atoi, strtol10.
  destruct (skip_spaces s) as [|c r]; [reflexivity|].
  destruct (Ascii.eqb c "-"); cbn [orb].
  { intros Hr. now rewrite (digits_value_no_digit 0 r Hr). }
  destruct (Ascii.eqb c "+"); cbn [orb].
  { intros Hr. now rewrite (digits_value_no_digit 0 r Hr). }
  intros Hr. now rewrite (digits_value_no_digit 0 (String c r) Hr).
Qed.

Lemma command_line_of_options (argv : list string) (h s m : string) :
  parse_options (getopt_scan (tl argv)) no_options <> None ->
  last_optarg "h" (getopt_scan (tl argv)) = Some h ->
  last_optarg "p" (getopt_scan (tl argv)) = Some s ->
  mode_is argv m ->
  command_line argv = validate (mkOptions (atoi s) h m).
Proof.
  unfold command_line, mode_is. intros Hp Hh Hs Hm.
  destruct (parse_options _ _) as [o|] eqn:Eo; [|congruence].
  apply parse_options_fields in Eo. rewrite Hh, Hs, Hm in Eo. simpl in Eo.
  destruct o as [po ho mo]. simpl in Eo. destruct Eo as (-> & -> & ->).
  reflexivity.
Qed.

Lemma communicate_extends_log (fuel : nat) (p p' : Proc C) :
  communicate fuel p = Some p' -> exists new, log p' = (log p ++ new)%list.
Proof.
  intros Hrun.
  apply (communicate_log_rule
           (fun l => exists new, l = (log p ++ new)%list)
           (fun l => exists new, l = (log p ++ new)%list))
    with (fuel := fuel) (p := p) (p' := p'); auto.
  - intros q q' _ [new Hq]. rewrite iteration_eq. cbv zeta.
    repeat match goal with
           | |- context [if ?b then _ else _] => destruct b
           end; intros E; inversion E; subst; simpl; rewrite Hq;
      rewrite <- ?app_assoc; eauto.
  - intros q q' _ [new Hq]. rewrite iteration_eq. cbv zeta.
    repeat match goal with
           | |- context [if ?b then _ else _] => destruct b
           end; intros E; inversion E; subst; simpl; rewrite Hq;
      rewrite <- ?app_assoc; eauto.
  - exists []. now rewrite app_nil_r.
Qed.

Lemma run_session_starts_with_construct
    (o : Options) (input : string) (interrupts : list bool) :
  exists r rest,
    run_session o input interrupts = Some r
    /\ events r = Construct (port o) (hostname o) (socket_kind o) :: rest.
Proof.
  rewrite run_session_eq.
  destruct (state_eqb _ ERRORED).
  { do 2 eexists. split; reflexivity. }
  destruct (negb _ || _)%bool.
  { do 2 eexists. split; reflexivity. }
  destruct (entering_returns o input interrupts) as [p' Hp']. rewrite Hp'.
  apply communicate_extends_log in Hp'. destruct Hp' as [new Hnew].
  simpl in Hnew. simpl. unfold finish.
  destruct (negb (state_eqb (get_state (client p')) DOWN));
    do 2 eexists; (split; [reflexivity|]); simpl; rewrite Hnew; reflexivity.
Qed.

(** C9, as the program has it.  With a host and a valid mode given, the
    port argument goes through [atoi] and the result is only compared with
    [0].  An argument without a leading number (after blanks and an optional
    sign) converts to [0]; whenever the conversion gives [0] the program
    reports ["Port not specified!"] with the usage line and exits with
    [EXIT_FAILURE]; every other result, negative or above 65535 included,
    passes validation and is handed to the constructor. *)
Theorem port_is_only_compared_with_zero
    (argv : list string) (input : string) (interrupts : list bool)
    (h s m : string) :
  parse_options (getopt_scan (tl argv)) no_options <> None ->
  last_optarg "h" (getopt_scan (tl argv)) = Some h ->
  h <> "" ->
  last_optarg "p" (getopt_scan (tl argv)) = Some s ->
  mode_is argv m ->
  m = "tcp" \/ m = "udp" ->
  (has_numeric_prefix s = false -> atoi s = 0)
  /\ (atoi s = 0 ->
      main argv input interrupts
      = Some (mkOutcome EXIT_FAILURE [Stderr port_message] None))
  /\ (atoi s <> 0 ->
      command_line argv = Accepted (mkOptions (atoi s) h m)
      /\ exists r rest,
          main argv input interrupts = Some r
          /\ events r
             = Construct (atoi s) h (socket_kind (mkOptions (atoi s) h m))
                 :: rest).
Proof.
  intros Hp Hh Hne Hs Hm Hmode.
  pose proof (command_line_of_options argv h s m Hp Hh Hs Hm) as Hcl.
  assert (is_empty h = false) as Hhe by (destruct h; [congruence|reflexivity]).
  split; [apply atoi_without_digits|]. split.
  - intros Hz. unfold main. rewrite Hcl. unfold validate. simpl.
    rewrite Hhe, Hz. reflexivity.
  - intros Hnz.
    assert (command_line argv = Accepted (mkOptions (atoi s) h m)) as Hacc.
    { rewrite Hcl. unfold validate. simpl. rewrite Hhe.
      apply Z.eqb_neq in Hnz. rewrite Hnz.
      destruct Hmode as [-> | ->]; reflexivity. }
    split; [exact Hacc|].
    unfold main. rewrite Hacc.
    apply (run_session_starts_with_construct (mkOptions (atoi s) h m)).
Qed.

End Session.

(** ** The scripted session honours the contract *)

Lemma scripted_connect_failure (w : Scripted.Wire) :
  @connect_failure_errors _ (Scripted.client w).
Proof.
  intros s. simpl. unfold Scripted.s_connect.
  destruct (Scripted.state s), (Scripted.kind s);
    try destruct (Scripted.accepts (Scripted.wire s));
    simpl; congruence.
Qed.

Lemma scripted_send_failure (w : Scripted.Wire) :
  @send_failure_errors _ (Scripted.client w).
Proof.
  intros s text. simpl. unfold Scripted.s_send. intros ->.
  destruct (Scripted.script (Scripted.wire s)) as [|[t| |] rest]; simpl;
    try lia; auto.
Qed.

Lemma scripted_send_success (w : Scripted.Wire) :
  @send_success_stays_up _ (Scripted.client w).
Proof.
  intros s text. simpl. unfold Scripted.s_send. intros Hup. rewrite Hup.
  destruct (Scripted.script (Scripted.wire s)) as [|[t| |] rest]; simpl;
    try lia; auto.
Qed.

Lemma scripted_disconnect (w : Scripted.Wire) :
  @disconnect_reaches_down _ (Scripted.client w).
Proof.
  intros s. simpl. unfold Scripted.s_disconnect. intros ->. simpl. auto.
Qed.

(** ** Concrete runs *)

(** C1 at a run: the user typed [abc], SIGINT was handled before the first
    check. *)
Lemma cancellation_stops_requests_witness :
  let ops := Scripted.client Sample.shouting in
  let p := Sample.after_connect Sample.shouting ("abc" ++ endl) [true] in
  @get_state _ ops (client p) = UP
  /\ cancelled p = true
  /\ @communicate _ ops 1 p
     = Some (mkProc (snd (@disconnect _ ops (client p))) (cin_after p) true []
               [Construct 2023 "localhost" SOCK_STREAM; Call Connect INIT;
                Call Disconnect UP; Stdout ("BYE" ++ endl)]).
Proof.
  intros ops p.
  split; [reflexivity|]. split; [reflexivity|].
  apply (proj1 (@cancellation_stops_requests _ ops) p 0%nat); reflexivity.
Defined.

(** C2 at a run that ends after an empty reply, the session still [UP]. *)
Lemma exit_status_follows_final_state_witness :
  let ops := Scripted.client Sample.gone in
  command_line Sample.tcp_args = Accepted Sample.tcp_options
  /\ exists r c,
      @main _ ops Sample.tcp_args ("hello" ++ endl) [] = Some r
      /\ session r = Some c
      /\ @final_session _ ops Sample.tcp_options ("hello" ++ endl) [] c
      /\ (@get_state _ ops c <> DOWN ->
          exit_code r = EXIT_FAILURE
          /\ exists before,
              events r
              = (before ++ [Stderr ("!ERR! " ++ @error_msg _ ops c ++ endl)])%list)
      /\ (exit_code r = EXIT_SUCCESS -> @get_state _ ops c = DOWN)
      /\ (@connect_failure_errors _ ops ->
          @get_state _ ops c = DOWN -> exit_code r = EXIT_SUCCESS).
Proof.
  intros ops. split; [reflexivity|].
  apply (@exit_status_follows_final_state _ ops Sample.tcp_args
           Sample.tcp_options ("hello" ++ endl) []).
  reflexivity.
Defined.

(** C3 at a loop state: the server is gone, [recv] returns nothing. *)
Lemma empty_reply_stops_loop_and_fails_witness :
  let ops := Scripted.client Sample.gone in
  let p := Sample.after_connect Sample.gone ("hello" ++ endl) [] in
  exists p',
    @communicate _ ops 1 p = Some p'
    /\ client p' = snd (@recv _ ops (snd (@send _ ops (client p) "hello")))
    /\ log p'
       = [Construct 2023 "localhost" SOCK_STREAM; Call Connect INIT;
          Call (Send "hello") UP; Call Recv UP]
    /\ @finish _ ops p'
       = mkOutcome EXIT_FAILURE
           (log p' ++ [Stderr ("!ERR! " ++ @error_msg _ ops (client p') ++ endl)])%list
           (Some (client p')).
Proof.
  intros ops p.
  destruct (@empty_reply_stops_loop_and_fails _ ops p 0%nat)
    as (p' & Hrun & Hclient & Hlog & Hfinish);
    try reflexivity.
  { vm_compute. discriminate. }
  exists p'. split; [exact Hrun|]. split; [exact Hclient|].
  split; [exact Hlog|]. apply Hfinish. rewrite Hclient. discriminate.
Defined.

(** C3, the claim as worded, fails: after an empty reply in [UP] the run
    ends with an error report and [EXIT_FAILURE], not as a normal
    termination. *)
Lemma empty_reply_is_reported_as_error :
  let ops := Scripted.client Sample.gone in
  exists r c,
    @main _ ops Sample.tcp_args ("hello" ++ endl) [] = Some r
    /\ events r
       = [Construct 2023 "localhost" SOCK_STREAM; Call Connect INIT;
          Call (Send "hello") UP; Call Recv UP; Stderr ("!ERR! " ++ endl)]
    /\ session r = Some c
    /\ @get_state _ ops c = UP
    /\ exit_code r = EXIT_FAILURE
    /\ ~ normal_termination r.
Proof.
  intros ops. do 2 eexists.
  split; [vm_compute; reflexivity|].
  split; [reflexivity|]. split; [reflexivity|]. split; [reflexivity|].
  split; [reflexivity|].
  intros [Hcode _]. discriminate Hcode.
Qed.

(** C4 at two loop states: one where the input is exhausted and the end has
    been seen, one where the input holds the unfinished line [abc]. *)
Lemma cancellation_ends_through_disconnect_witness :
  let ops := Scripted.client Sample.shouting in
  let p := mkProc (client (Sample.after_connect Sample.shouting "" []))
             (mkIstream true true "") false [] [] in
  let q := Sample.after_connect Sample.shouting "abc" [] in
  (@disconnect_reaches_down _ ops
   /\ @get_state _ ops (client p) = UP
   /\ cancelled p = true
   /\ exists p',
       @communicate _ ops 1 p = Some p'
       /\ log p' = [Call Disconnect UP; Stdout ("BYE" ++ endl)]
       /\ @finish _ ops p'
          = mkOutcome EXIT_SUCCESS (log p')
              (Some (snd (@disconnect _ ops (client p)))))
  /\ (has_newline "abc" = false
      /\ exists f q' tail,
          @iteration _ ops q = (f, q')
          /\ eofbit (cin q') = true
          /\ log q' = (log q ++ Call (Send "abc") UP :: tail)%list).
Proof.
  intros ops p q.
  destruct (@cancellation_ends_through_disconnect _ ops
              (scripted_disconnect Sample.shouting)) as [Hstop Hlast].
  split.
  - split; [apply scripted_disconnect|].
    split; [reflexivity|]. split; [reflexivity|].
    apply (Hstop p 0%nat); reflexivity.
  - split; [reflexivity|].
    apply (Hlast q "abc"); try reflexivity. discriminate.
Defined.

(** C4, the claim as worded, fails: the input ends in the middle of the line
    [abc], and that line is sent before the program disconnects. *)
Lemma unterminated_last_line_is_sent :
  let ops := Scripted.client Sample.shouting in
  partial_line "abc" = "abc"
  /\ exists r,
      @main _ ops Sample.tcp_args "abc" [] = Some r
      /\ events r
         = [Construct 2023 "localhost" SOCK_STREAM; Call Connect INIT;
            Call (Send "abc") UP; Call Recv UP; Stdout ("ABC" ++ endl);
            Call Disconnect UP; Stdout ("BYE" ++ endl)]
      /\ In (Call (Send (partial_line "abc")) UP) (events r).
Proof.
  intros ops. split; [reflexivity|].
  eexists. split; [vm_compute; reflexivity|].
  split; [reflexivity|]. simpl. auto.
Qed.

(** C5 at a loop state: the line [abc] has been typed, nothing interrupts. *)
Lemma line_is_sent_once_unless_cancelled_witness :
  let ops := Scripted.client Sample.shouting in
  let p := Sample.after_connect Sample.shouting ("abc" ++ endl) [] in
  cancelled p = false
  /\ is_empty (line_read p) = false
  /\ exists f p' tail,
      @iteration _ ops p = (f, p')
      /\ log p'
         = (log p ++ Call (Send "abc") UP :: tail)%list
      /\ (tail = []
          \/ (exists st, tail = [Call Recv st])
          \/ (exists st text, tail = [Call Recv st; Stdout text])).
Proof.
  intros ops p.
  split; [reflexivity|]. split; [reflexivity|].
  apply (proj2 (proj1 (@line_is_sent_once_unless_cancelled _ ops p) eq_refl)).
  reflexivity.
Defined.

(** C5, the claim as worded, fails: the line [abc] is read in an iteration
    whose check finds SIGINT handled; it is dropped, nothing is sent. *)
Lemma line_read_under_interrupt_is_not_sent :
  let ops := Scripted.client Sample.shouting in
  let p := Sample.after_connect Sample.shouting ("abc" ++ endl) [true] in
  line_read p = "abc"
  /\ filter is_send (log (snd (@iteration _ ops p))) = []
  /\ exists r,
      @main _ ops Sample.tcp_args ("abc" ++ endl) [true] = Some r
      /\ events r
         = [Construct 2023 "localhost" SOCK_STREAM; Call Connect INIT;
            Call Disconnect UP; Stdout ("BYE" ++ endl)].
Proof.
  intros ops p. split; [reflexivity|]. split; [reflexivity|].
  eexists. split; [vm_compute; reflexivity | reflexivity].
Qed.

(** C6 at a loop state: the first write fails. *)
Lemma failed_send_stops_loop_witness :
  let ops := Scripted.client Sample.broken in
  let p := Sample.after_connect Sample.broken ("abc" ++ endl) [] in
  @send_failure_errors _ ops
  /\ fst (@send _ ops (client p) (line_read p)) < 0
  /\ exists p',
      @communicate _ ops 1 p = Some p'
      /\ log p'
         = [Construct 2023 "localhost" SOCK_STREAM; Call Connect INIT;
            Call (Send "abc") UP]
      /\ client p' = snd (@send _ ops (client p) "abc")
      /\ @get_state _ ops (client p') = ERRORED
      /\ is_empty (@error_msg _ ops (client p')) = false
      /\ @finish _ ops p'
         = mkOutcome EXIT_FAILURE
             (log p' ++ [Stderr ("!ERR! " ++ @error_msg _ ops (client p') ++ endl)])%list
             (Some (client p')).
Proof.
  intros ops p.
  split; [apply scripted_send_failure|]. split; [reflexivity|].
  apply (@failed_send_stops_loop _ ops p 0%nat);
    [apply scripted_send_failure | reflexivity ..].
Defined.

(** C7 at a command line without [-p]. *)
Lemma incomplete_command_line_is_refused_witness :
  let ops := Scripted.client Sample.shouting in
  missing "p" Sample.no_port_args
  /\ exists text,
      has_usage_line text
      /\ @main _ ops Sample.no_port_args "" []
         = Some (mkOutcome EXIT_FAILURE [Stderr text] None).
Proof.
  intros ops. split; [reflexivity|].
  apply (@incomplete_command_line_is_refused _ ops).
  right. left. reflexivity.
Defined.

(** C8 at a run with one full exchange. *)
Lemma requests_only_while_up_witness :
  let ops := Scripted.client Sample.shouting in
  @send_success_stays_up _ ops
  /\ exists r,
      @main _ ops Sample.tcp_args ("abc" ++ endl) [] = Some r
      /\ forall m st,
          In (Call m st) (events r) -> is_request m = true -> st = UP.
Proof.
  intros ops. split; [apply scripted_send_success|].
  apply (@requests_only_while_up _ ops). apply scripted_send_success.
Defined.

(** C9 at the port argument [-5]. *)
Lemma port_is_only_compared_with_zero_witness :
  let ops := Scripted.client Sample.shouting in
  atoi "-5" = -5
  /\ command_line (Sample.port_args "-5")
     = Accepted (mkOptions (-5) "localhost" "udp")
  /\ exists r rest,
      @main _ ops (Sample.port_args "-5") "" [] = Some r
      /\ events r = Construct (-5) "localhost" SOCK_DGRAM :: rest.
Proof.
  intros ops. split; [reflexivity|].
  apply (@port_is_only_compared_with_zero _ ops (Sample.port_args "-5") "" []
           "localhost" "-5" "udp");
    try reflexivity; try discriminate.
  right. reflexivity.
Defined.

(** C9, the claim as worded, fails: ["12abc"] is not a number, yet it is
    accepted as port 12 rather than reported as a missing port. *)
Lemma port_with_trailing_text_is_accepted :
  numeric "12abc" = false
  /\ command_line (Sample.port_args "12abc")
     = Accepted (mkOptions 12 "localhost" "udp")
  /\ command_line (Sample.port_args "12abc") <> Rejected port_message.
Proof.
  split; [reflexivity|]. split; [reflexivity|]. discriminate.
Qed.

(** C10 at a host name that does not resolve. *)
Lemma errored_at_construction_is_reported_witness :
  let ops := Scripted.client Sample.unknown_host in
  command_line Sample.tcp_args = Accepted Sample.tcp_options
  /\ @get_state _ ops (@created _ ops Sample.tcp_options) = ERRORED
  /\ @main _ ops Sample.tcp_args ("hello" ++ endl) []
     = Some (mkOutcome EXIT_FAILURE
               [Construct 2023 "localhost" SOCK_STREAM;
                Stderr ("!ERR! Host not found!" ++ endl)]
               (Some (@created _ ops Sample.tcp_options))).
Proof.
  intros ops. split; [reflexivity|]. split; [reflexivity|].
  apply (@errored_at_construction_is_reported _ ops Sample.tcp_args
           Sample.tcp_options ("hello" ++ endl) []); reflexivity.
Defined.

(** * Further properties of the program *)

(** ** [getopt] and the option checks *)

Lemma scan_element_known (chars : string) (next : option string) :
  Forall known_option (fst (scan_element chars next)).
Proof.
  induction chars as [|c cs IH]; simpl; [constructor|].
  destruct (takes_argument c) eqn:Ec.
  - destruct cs; [destruct next|]; simpl; repeat constructor; simpl; auto.
  - destruct (scan_element cs next) as [rs used]. simpl in *.
    constructor; simpl; auto.
Qed.

(** [getopt_scan] on a non-empty vector, with the test for the leading dash
    spelled out. *)
Lemma getopt_scan_cons (a : string) (rest : list string) :
  getopt_scan (a :: rest) =
    if (a =? "--")%string then []
    else
      match a with
      | String d (String c cs) =>
          if Ascii.eqb d "-" then
            if snd (scan_element (String c cs) (hd_error rest)) then
              match rest with
              | _ :: rest' =>
                  (fst (scan_element (String c cs) (hd_error rest))
                     ++ getopt_scan rest')%list
              | [] => fst (scan_element (String c cs) (hd_error rest))
              end
            else
              (fst (scan_element (String c cs) (hd_error rest))
                 ++ getopt_scan rest)%list
          else getopt_scan rest
      | _ => getopt_scan rest
      end.
Proof.
  cbn [getopt_scan].
  destruct (a =? "--")%string; [reflexivity|].
  destruct a as [|d [|c cs]]; try reflexivity;
    try (destruct d as [[] [] [] [] [] [] [] []]; reflexivity).
  destruct (scan_element (String c cs) (hd_error rest)) as [rs used] eqn:Es.
  destruct d as [[] [] [] [] [] [] [] []]; cbn [Ascii.eqb Bool.eqb fst snd];
    try reflexivity.
Qed.

Lemma getopt_scan_known (args : list string) :
  Forall known_option (getopt_scan args).
Proof.
  assert (forall n args, (List.length args <= n)%nat ->
                         Forall known_option (getopt_scan args)) as Hn.
  { induction n as [|n IH]; intros [|a rest] Hlen;
      try (now constructor); cbn [List.length] in Hlen; try lia.
    rewrite getopt_scan_cons.
    destruct (a =? "--")%string; [constructor|].
    assert (Forall known_option (getopt_scan rest)) as Hrest
        by (apply IH; lia).
    destruct a as [|d [|c cs]]; try exact Hrest.
    destruct (Ascii.eqb d "-"); [|exact Hrest].
    pose proof (scan_element_known (String c cs) (hd_error rest)) as Hs.
    destruct (snd (scan_element (String c cs) (hd_error rest))).
    - destruct rest as [|b rest']; [exact Hs|].
      apply Forall_app. split; [exact Hs|].
      apply IH. cbn [List.length] in Hlen. lia.
    - apply Forall_app. split; [exact Hs | exact Hrest]. }
  now apply (Hn (List.length args)).
Qed.

Lemma parse_options_complains (rs : list GetoptResult) :
  forall o, In Unrecognised rs -> parse_options rs o = None.
Proof.
  induction rs as [|r rs IH]; intros o Hin; [destruct Hin|].
  simpl. destruct Hin as [-> | Hin]; [reflexivity|].
  destruct (apply_option o r); [now apply IH | reflexivity].
Qed.

Lemma parse_options_succeeds (rs : list GetoptResult) :
  Forall known_option rs ->
  forall o, ~ In Unrecognised rs -> exists o', parse_options rs o = Some o'.
Proof.
  induction 1 as [|r rs Hr _ IH]; intros o Hno; simpl; [eauto|].
  destruct r as [c v|]; [|exfalso; apply Hno; now left].
  assert (exists o1, apply_option o (Opt c v) = Some o1) as [o1 Ho1].
  { simpl in *. unfold takes_argument in Hr.
    destruct (Ascii.eqb c "h"); [eauto|].
    destruct (Ascii.eqb c "p"); [eauto|].
    destruct (Ascii.eqb c "m"); [eauto | discriminate]. }
  rewrite Ho1. apply IH. intros Hin. apply Hno. now right.
Qed.

(** The whole of lines 59-105 in one formula: what [getopt] returned decides
    the three options, and the checks run in the order host, port, mode. *)
Lemma command_line_computed (argv : list string) :
  ~ In Unrecognised (getopt_scan (tl argv)) ->
  command_line argv
  = validate
      (mkOptions
         (or_default (option_map atoi (last_optarg "p" (getopt_scan (tl argv)))) 0)
         (or_default (last_optarg "h" (getopt_scan (tl argv))) "")
         (or_default (last_optarg "m" (getopt_scan (tl argv))) "")).
Proof.
  intros Hno. unfold command_line.
  destruct (parse_options_succeeds _ (getopt_scan_known (tl argv)) no_options Hno)
    as [o Ho].
  rewrite Ho. apply parse_options_fields in Ho. simpl in Ho.
  destruct o as [po ho mo]. simpl in Ho. destruct Ho as (-> & -> & ->).
  reflexivity.
Qed.

Lemma element_complaints_match (chars : string) (next : option string) :
  List.length (element_complaints chars next)
  = List.length (filter is_unrecognised (fst (scan_element chars next))).
Proof.
  induction chars as [|c cs IH]; simpl; [reflexivity|].
  destruct (takes_argument c).
  - destruct cs; [destruct next|]; reflexivity.
  - destruct (scan_element cs next) as [rs used]. simpl in *. now rewrite IH.
Qed.

Lemma getopt_complaints_cons (a : string) (rest : list string) :
  getopt_complaints (a :: rest) =
    if (a =? "--")%string then []
    else
      match a with
      | String d (String c cs) =>
          if Ascii.eqb d "-" then
            if snd (scan_element (String c cs) (hd_error rest)) then
              match rest with
              | _ :: rest' =>
                  (element_complaints (String c cs) (hd_error rest)
                     ++ getopt_complaints rest')%list
              | [] => element_complaints (String c cs) (hd_error rest)
              end
            else
              (element_complaints (String c cs) (hd_error rest)
                 ++ getopt_complaints rest)%list
          else getopt_complaints rest
      | _ => getopt_complaints rest
      end.
Proof.
  cbn [getopt_complaints].
  destruct (a =? "--")%string; [reflexivity|].
  destruct a as [|d [|c cs]]; try reflexivity;
    destruct d as [[] [] [] [] [] [] [] []]; reflexivity.
Qed.

(** [getopt] complains once for every ['?'] it returns. *)
Lemma getopt_complaints_match (args : list string) :
  List.length (getopt_complaints args)
  = List.length (filter is_unrecognised (getopt_scan args)).
Proof.
  assert (forall n args, (List.length args <= n)%nat ->
            List.length (getopt_complaints args)
            = List.length (filter is_unrecognised (getopt_scan args))) as Hn.
  { induction n as [|n IH]; intros [|a rest] Hlen;
      try reflexivity; cbn [List.length] in Hlen; try lia.
    rewrite getopt_scan_cons, getopt_complaints_cons.
    destruct (a =? "--")%string; [reflexivity|].
    assert (List.length (getopt_complaints rest)
            = List.length (filter is_unrecognised (getopt_scan rest))) as Hrest
        by (apply IH; lia).
    destruct a as [|d [|c cs]]; try exact Hrest.
    destruct (Ascii.eqb d "-"); [|exact Hrest].
    pose proof (element_complaints_match (String c cs) (hd_error rest)) as He.
    destruct (snd (scan_element (String c cs) (hd_error rest))).
    - destruct rest as [|b rest']; [exact He|].
      rewrite filter_app, !length_app, He. f_equal.
      apply IH. cbn [List.length] in Hlen. lia.
    - now rewrite filter_app, !length_app, He, Hrest. }
  now apply (Hn (List.length args)).
Qed.

Lemma complaint_exists (args : list string) :
  In Unrecognised (getopt_scan args) ->
  exists k rest, getopt_complaints args = k :: rest.
Proof.
  intros Hin. pose proof (getopt_complaints_match args) as Hlen.
  destruct (getopt_complaints args) as [|k rest]; [|eauto].
  exfalso. apply in_split in Hin. destruct Hin as (l1 & l2 & Hsplit).
  rewrite Hsplit, filter_app, length_app in Hlen. simpl in Hlen. lia.
Qed.

Section Complaints.

Context {C : Type} `{IPKCPClient C}.

(** X1.  When [getopt] returns ['?'] for some element (an option character
    other than [h], [p], [m], or one of these without its argument), all the
    program does is put on standard error libc's complaint about the first
    such element, followed by the usage line and no ["!ERR!"] line, and exit
    with [EXIT_FAILURE].  When [getopt] returns no ['?'], the command line
    is either accepted or refused with one of the four ["!ERR!"] texts. *)
Theorem getopt_complaint_precedes_usage
    (argv : list string) (input : string) (interrupts : list bool) :
  (In Unrecognised (getopt_scan (tl argv)) ->
   exists k rest,
     getopt_complaints (tl argv) = k :: rest
     /\ main argv input interrupts
        = Some (mkOutcome EXIT_FAILURE
                  [Stderr (complaint_text (hd "" argv) k ++ usage ++ endl)]
                  None))
  /\ (~ In Unrecognised (getopt_scan (tl argv)) ->
      (exists o, command_line argv = Accepted o)
      \/ command_line argv = Rejected host_message
      \/ command_line argv = Rejected port_message
      \/ command_line argv = Rejected mode_message
      \/ command_line argv = Rejected invalid_mode_message).
Proof.
  split.
  - intros Hin.
    destruct (complaint_exists (tl argv) Hin) as (k & rest & Hk).
    exists k, rest. split; [exact Hk|].
    unfold main, command_line, getopt_message.
    now rewrite (parse_options_complains _ no_options Hin), Hk.
  - intros Hno. rewrite (command_line_computed argv Hno).
    unfold validate.
    repeat match goal with
           | |- context [if ?b then _ else _] => destruct b
           end; eauto 6.
Qed.

End Complaints.

(** X2.  The option checks run in a fixed order and the first that fails
    decides the text: without a ['?'] from [getopt], a missing or empty host
    gives the host text whatever else is wrong; with a host, a missing port
    or one that converts to 0 gives the port text; with both, a missing or
    empty mode gives the mode text, and any other mode than [tcp] and [udp]
    the invalid-mode text. *)
Theorem first_failing_check_decides (argv : list string) :
  ~ In Unrecognised (getopt_scan (tl argv)) ->
  let h := or_default (last_optarg "h" (getopt_scan (tl argv))) "" in
  let p := or_default (option_map atoi (last_optarg "p" (getopt_scan (tl argv)))) 0 in
  let m := or_default (last_optarg "m" (getopt_scan (tl argv))) "" in
  (h = "" -> command_line argv = Rejected host_message)
  /\ (h <> "" -> p = 0 -> command_line argv = Rejected port_message)
  /\ (h <> "" -> p <> 0 -> m = "" ->
      command_line argv = Rejected mode_message)
  /\ (h <> "" -> p <> 0 -> m <> "" -> m <> "tcp" -> m <> "udp" ->
      command_line argv = Rejected invalid_mode_message).
Proof.
  intros Hno h p m. rewrite (command_line_computed argv Hno).
  fold h p m. unfold validate. simpl.
  assert (forall s, s <> "" -> is_empty s = false) as Hne
      by (intros [|] ?; [congruence | reflexivity]).
  repeat split.
  - intros ->. reflexivity.
  - intros Hh ->. now rewrite (Hne h Hh).
  - intros Hh Hp ->. rewrite (Hne h Hh).
    apply Z.eqb_neq in Hp. now rewrite Hp.
  - intros Hh Hp Hm Ht Hu. rewrite (Hne h Hh), (Hne m Hm).
    apply Z.eqb_neq in Hp. rewrite Hp.
    apply String.eqb_neq in Ht, Hu. now rewrite Ht, Hu.
Qed.

(** X3.  The command line is accepted exactly when [getopt] returned no
    ['?'], the last [-h] argument is not empty, the last [-p] argument
    converts to a number other than 0 and the last [-m] argument is [tcp] or
    [udp]; the accepted options are these three values. *)
Theorem accepted_exactly_when_complete (argv : list string) (o : Options) :
  command_line argv = Accepted o
  <-> (~ In Unrecognised (getopt_scan (tl argv))
       /\ last_optarg "h" (getopt_scan (tl argv)) = Some (hostname o)
       /\ hostname o <> ""
       /\ (exists s, last_optarg "p" (getopt_scan (tl argv)) = Some s
                     /\ atoi s = port o)
       /\ port o <> 0
       /\ last_optarg "m" (getopt_scan (tl argv)) = Some (protocol o)
       /\ (protocol o = "tcp" \/ protocol o = "udp")).
Proof.
  split.
  - intros Hc.
    assert (~ In Unrecognised (getopt_scan (tl argv))) as Hno.
    { intros Hin. unfold command_line in Hc.
      now rewrite (parse_options_complains _ no_options Hin) in Hc. }
    split; [exact Hno|].
    rewrite (command_line_computed argv Hno) in Hc.
    apply validate_accepts in Hc. simpl in Hc.
    destruct Hc as (-> & Hh & Hp & Hm). simpl.
    destruct (last_optarg "h" _) as [h|]; simpl in *; [|congruence].
    destruct (last_optarg "p" _) as [s|]; simpl in *; [|congruence].
    destruct (last_optarg "m" _) as [m|]; simpl in *;
      [|destruct Hm; discriminate].
    repeat split; eauto.
  - intros (Hno & Hh & Hhne & (s & Hs & Hport) & Hpne & Hm & Hmode).
    rewrite (command_line_computed argv Hno), Hh, Hs, Hm. simpl.
    rewrite Hport. destruct o as [po ho mo]. simpl in *.
    unfold validate. simpl.
    destruct ho; [congruence|]. simpl.
    apply Z.eqb_neq in Hpne. rewrite Hpne.
    destruct Hmode as [-> | ->]; reflexivity.
Qed.

(** ** The order of events *)

Lemma follow_app (ph : Phase) (a b : list Event) :
  follow ph (a ++ b)
  = match follow ph a with
    | Some ph' => follow ph' b
    | None => None
    end.
Proof.
  revert ph. induction a as [|e a IH]; intros ph; simpl; [reflexivity|].
  destruct (advance ph e); [apply IH | reflexivity].
Qed.

Lemma follow_split (ph0 ph : Phase) (before after : list Event) (d : Event) :
  follow ph0 (before ++ d :: after) = Some ph ->
  exists ph1 ph2,
    follow ph0 before = Some ph1
    /\ advance ph1 d = Some ph2
    /\ follow ph2 after = Some ph.
Proof.
  rewrite follow_app.
  destruct (follow ph0 before) as [ph1|]; [|discriminate]. simpl.
  destruct (advance ph1 d) as [ph2|] eqn:Ed; [|discriminate].
  eauto.
Qed.

Lemma follow_last (ph0 ph : Phase) (l : list Event) :
  follow ph0 l = Some ph ->
  l = [] /\ ph = ph0
  \/ exists before d ph1,
      l = (before ++ [d])%list
      /\ follow ph0 before = Some ph1
      /\ advance ph1 d = Some ph.
Proof.
  induction l as [|e l' _] using rev_ind.
  - simpl. intros [= <-]. now left.
  - intros Hf. right.
    apply follow_split in Hf. destruct Hf as (ph1 & ph2 & Hb & Hd & Ha).
    simpl in Ha. injection Ha as <-. now exists l', e, ph1.
Qed.

Lemma advance_reported_stops (l : list Event) (ph : Phase) :
  follow Reported l = Some ph -> l = [].
Proof. destruct l; [reflexivity | discriminate]. Qed.

Lemma advance_target (ph ph' : Phase) (e : Event) :
  advance ph e = Some ph' ->
  match ph' with
  | Fresh => False
  | Built => ph = Fresh /\ is_construct e = true
  | Idle => (ph = Built /\ is_connect e = true)
            \/ (ph = Answered /\ exists text, e = Stdout text)
  | Asked => ph = Idle /\ is_send e = true
  | Answered => ph = Asked /\ exists st, e = Call Recv st
  | Leaving => ph = Idle /\ is_disconnect e = true
  | Left => ph = Leaving /\ exists text, e = Stdout text
  | Reported => is_stderr e = true
  end.
Proof.
  destruct ph, e as [? ? ?|[] ?|?|?]; simpl; intros [= <-]; eauto.
Qed.

Lemma validate_accepts_options (argv : list string) (o : Options) :
  command_line argv = Accepted o ->
  protocol o = "tcp" /\ socket_kind o = SOCK_STREAM
  \/ protocol o = "udp" /\ socket_kind o = SOCK_DGRAM.
Proof.
  unfold command_line. destruct (parse_options _ _) as [o1|]; [|discriminate].
  intros Hv. apply validate_accepts in Hv.
  destruct Hv as (-> & _ & _ & [Hm | Hm]); unfold socket_kind; rewrite Hm;
    auto.
Qed.

Section Protocol.

Context {C : Type} `{IPKCPClient C}.

(** Every run goes through the phases in order, and its exit code tells
    whether it ended on an error text. *)
Lemma runs_follow_protocol
    (argv : list string) (input : string) (interrupts : list bool) :
  exists r ph,
    main argv input interrupts = Some r
    /\ follow Fresh (events r) = Some ph
    /\ (ph = Reported /\ exit_code r = EXIT_FAILURE
        \/ (ph = Idle \/ ph = Asked \/ ph = Answered \/ ph = Left)
           /\ exit_code r = EXIT_SUCCESS).
Proof.
  unfold main. destruct (command_line argv) as [o|text].
  2:{ do 2 eexists. split; [reflexivity|]. simpl. split; [reflexivity|]. auto. }
  rewrite run_session_eq.
  destruct (state_eqb _ ERRORED).
  { do 2 eexists. split; [reflexivity|]. simpl. split; [reflexivity|]. auto. }
  destruct (negb _ || _)%bool.
  { do 2 eexists. split; [reflexivity|]. simpl. split; [reflexivity|]. auto. }
  destruct (entering_returns o input interrupts) as [p' Hp']. rewrite Hp'.
  simpl.
  assert (exists ph, follow Fresh (log p') = Some ph
                     /\ (ph = Idle \/ ph = Asked \/ ph = Answered \/ ph = Left))
    as (ph & Hph & Hend).
  { apply (communicate_log_rule
             (fun l => follow Fresh l = Some Idle)
             (fun l => exists ph, follow Fresh l = Some ph
                                  /\ (ph = Idle \/ ph = Asked
                                      \/ ph = Answered \/ ph = Left)))
      with (fuel := enough input) (p := entering o input interrupts);
      [ eauto | | | reflexivity | exact Hp' ].
    - intros p q _ Hl. rewrite iteration_eq. cbv zeta. unfold asked.
      repeat match goal with
             | |- context [if ?b then _ else _] => destruct b
             end; intros E; inversion E; subst; simpl; auto.
      rewrite !follow_app, Hl. reflexivity.
    - intros p q _ Hl. rewrite iteration_eq. cbv zeta. unfold asked.
      repeat match goal with
             | |- context [if ?b then _ else _] => destruct b
             end; intros E; inversion E; subst; simpl;
        rewrite !follow_app, Hl; simpl; eauto 7. }
  unfold finish.
  destruct (negb (state_eqb (get_state (client p')) DOWN)); simpl.
  - exists (mkOutcome EXIT_FAILURE (log p' ++ [report (client p')])%list
              (Some (client p'))), Reported.
    split; [reflexivity|]. simpl. rewrite follow_app, Hph.
    split; [|auto].
    destruct Hend as [-> | [-> | [-> | ->]]]; reflexivity.
  - exists (mkOutcome EXIT_SUCCESS (log p') (Some (client p'))), ph.
    split; [reflexivity|]. simpl. auto.
Qed.

(** X4.  Requests and replies alternate strictly: in every run each [recv]
    comes directly after a [send], and each [send] is followed directly by
    a [recv] unless it is the last thing the run does apart from the error
    text. *)
Theorem requests_and_replies_alternate
    (argv : list string) (input : string) (interrupts : list bool) :
  exists r,
    main argv input interrupts = Some r
    /\ (forall before st after,
          events r = (before ++ Call Recv st :: after)%list ->
          exists before' text st',
            before = (before' ++ [Call (Send text) st'])%list)
    /\ (forall before text st after,
          events r = (before ++ Call (Send text) st :: after)%list ->
          after = []
          \/ (exists message, after = [Stderr message])
          \/ (exists st' after', after = Call Recv st' :: after')).
Proof.
  destruct (runs_follow_protocol argv input interrupts)
    as (r & ph & Hr & Hf & _).
  exists r. split; [exact Hr|]. split.
  - intros before st after Hev. rewrite Hev in Hf.
    apply follow_split in Hf. destruct Hf as (ph1 & ph2 & Hb & Hd & _).
    assert (ph1 = Asked) as -> by (destruct ph1; simpl in Hd; congruence).
    apply follow_last in Hb.
    destruct Hb as [[_ Hx] | (before' & d & ph0 & -> & _ & Hd')];
      [discriminate|].
    apply advance_target in Hd'. destruct Hd' as [_ Hs].
    destruct d as [| [] | |]; try discriminate. eauto.
  - intros before text st after Hev. rewrite Hev in Hf.
    apply follow_split in Hf. destruct Hf as (ph1 & ph2 & _ & Hd & Ha).
    assert (ph2 = Asked) as ->.
    { destruct ph1; simpl in Hd; congruence. }
    destruct after as [|e after']; [now left | right].
    simpl in Ha. destruct e as [| [] st' | |]; simpl in Ha; try discriminate.
    + right. eauto.
    + left. apply advance_reported_stops in Ha. subst. eauto.
Qed.


(** X6.  Text reaches standard error only at the very end of a run: once
    something is on standard error the run does nothing more.  A run ends
    that way exactly when it exits with [EXIT_FAILURE]; every other run
    exits with [EXIT_SUCCESS]. *)
Theorem failure_is_the_last_word
    (argv : list string) (input : string) (interrupts : list bool) :
  exists r,
    main argv input interrupts = Some r
    /\ (exit_code r = EXIT_FAILURE
        <-> exists before message, events r = (before ++ [Stderr message])%list)
    /\ (exit_code r = EXIT_FAILURE \/ exit_code r = EXIT_SUCCESS)
    /\ (forall before message after,
          events r = (before ++ Stderr message :: after)%list -> after = []).
Proof.
  destruct (runs_follow_protocol argv input interrupts)
    as (r & ph & Hr & Hf & Hexit).
  exists r. split; [exact Hr|]. split; [|split].
  - split.
    + intros Hcode.
      assert (ph = Reported) as ->.
      { destruct Hexit as [[-> _] | [_ Hz]]; [reflexivity|].
        rewrite Hz in Hcode. discriminate. }
      apply follow_last in Hf.
      destruct Hf as [[_ Hx] | (before & d & ph0 & Hev & _ & Hd)];
        [discriminate|].
      apply advance_target in Hd.
      destruct d; try discriminate. eauto.
    + intros (before & message & Hev). rewrite Hev in Hf.
      apply follow_split in Hf. destruct Hf as (ph1 & ph2 & _ & Hd & Ha).
      simpl in Ha. injection Ha as <-.
      assert (ph2 = Reported) as -> by (destruct ph1; simpl in Hd; congruence).
      destruct Hexit as [[_ Hz] | [[Hx | [Hx | [Hx | Hx]]] _]];
        [exact Hz | discriminate ..].
  - destruct Hexit as [[_ Hz] | [_ Hz]]; auto.
  - intros before message after Hev. rewrite Hev in Hf.
    apply follow_split in Hf. destruct Hf as (ph1 & ph2 & _ & Hd & Ha).
    assert (ph2 = Reported) as -> by (destruct ph1; simpl in Hd; congruence).
    now apply advance_reported_stops in Ha.
Qed.

Lemma follow_counts (l : list Event) :
  forall ph ph',
    follow ph l = Some ph' ->
    (List.length (filter is_construct l)
     <= match ph with Fresh => 1 | _ => 0 end)%nat
    /\ (List.length (filter is_connect l)
        <= match ph with Fresh | Built => 1 | _ => 0 end)%nat
    /\ (List.length (filter is_disconnect l)
        <= match ph with Leaving | Left | Reported => 0 | _ => 1 end)%nat.
Proof.
  induction l as [|e l IH]; intros ph ph' Hf.
  - simpl. destruct ph; repeat split; lia.
  - simpl in Hf. destruct (advance ph e) as [ph1|] eqn:Ea; [|discriminate].
    specialize (IH ph1 ph' Hf).
    destruct ph, e as [? ? ?|[] ?|?|?]; simpl in Ea; try discriminate;
      injection Ea as <-; simpl in *; repeat split; lia.
Qed.

(** X7.  A run builds at most one client, calls [connect] at most once and
    [disconnect] at most once. *)
Theorem one_session_per_run
    (argv : list string) (input : string) (interrupts : list bool) :
  exists r,
    main argv input interrupts = Some r
    /\ (List.length (filter is_construct (events r)) <= 1)%nat
    /\ (List.length (filter is_connect (events r)) <= 1)%nat
    /\ (List.length (filter is_disconnect (events r)) <= 1)%nat.
Proof.
  destruct (runs_follow_protocol argv input interrupts)
    as (r & ph & Hr & Hf & _).
  exists r. split; [exact Hr|].
  exact (follow_counts (events r) Fresh ph Hf).
Qed.

(** X8.  Whenever a client is built, it is built from the validated
    options: the command line was accepted, the host and the port are the
    accepted ones, and the socket is a stream socket for mode [tcp] and a
    datagram socket for mode [udp]. *)
Theorem client_is_built_from_accepted_options
    (argv : list string) (input : string) (interrupts : list bool) :
  exists r,
    main argv input interrupts = Some r
    /\ forall p host kind,
        In (Construct p host kind) (events r) ->
        exists o,
          command_line argv = Accepted o
          /\ p = port o /\ host = hostname o
          /\ (protocol o = "tcp" /\ kind = SOCK_STREAM
              \/ protocol o = "udp" /\ kind = SOCK_DGRAM).
Proof.
  destruct (runs_follow_protocol argv input interrupts)
    as (r & ph & Hr & Hf & _).
  exists r. split; [exact Hr|].
  intros p host kind Hin.
  unfold main in Hr. destruct (command_line argv) as [o|text] eqn:Ec.
  2:{ injection Hr as <-. simpl in Hin. destruct Hin as [Hx|[]]. discriminate. }
  destruct (run_session_starts_with_construct o input interrupts)
    as (r' & rest & Hr' & Hev).
  rewrite Hr in Hr'. injection Hr' as <-.
  rewrite Hev in Hf, Hin. simpl in Hf.
  pose proof (follow_counts rest Built ph Hf) as (Hnone & _).
  destruct Hin as [Hhead | Hrest].
  - injection Hhead as <- <- <-. exists o. split; [reflexivity|].
    do 2 (split; [reflexivity|]).
    apply validate_accepts_options in Ec. exact Ec.
  - exfalso. apply (in_split _ _) in Hrest.
    destruct Hrest as (l1 & l2 & ->).
    rewrite filter_app, length_app in Hnone. simpl in Hnone. lia.
Qed.

End Protocol.

(** ** Lines of input and requests *)

Lemma lines_read_line (s : string) :
  lines s
  = fst (fst (read_line s))
      :: (if snd (read_line s) then [] else lines (snd (fst (read_line s)))).
Proof.
  induction s as [|c r IH]; simpl; [reflexivity|].
  destruct (Ascii.eqb c newline); simpl; [reflexivity|].
  rewrite IH. destruct (read_line r) as [[l r'] e]. reflexivity.
Qed.

Lemma read_line_no_newline (s : string) :
  has_newline (fst (fst (read_line s))) = false.
Proof.
  induction s as [|c r IH]; simpl; [reflexivity|].
  destruct (Ascii.eqb c newline) eqn:Ec; simpl; [reflexivity|].
  destruct (read_line r) as [[l r'] e]. simpl in *. now rewrite Ec.
Qed.

Lemma lines_no_newline (s : string) :
  Forall (fun l => has_newline l = false) (lines s).
Proof.
  assert (forall n s, (String.length s <= n)%nat ->
                      Forall (fun l => has_newline l = false) (lines s)) as Hn.
  { induction n as [|n IH]; intros t Hlen; rewrite lines_read_line;
      (constructor; [apply read_line_no_newline|]);
      destruct (snd (read_line t)) eqn:Ee; try constructor.
    - destruct t; [discriminate Ee | simpl in Hlen; lia].
    - apply IH.
      destruct t as [|c r]; [discriminate Ee|].
      assert (String c r <> "") as Hne by congruence.
      pose proof (read_line_shrinks (String c r) Hne) as Hs.
      cbn [String.length] in Hlen, Hs. lia. }
  now apply (Hn (String.length s)).
Qed.

Lemma requests_app (a b : list Event) :
  requests (a ++ b) = (requests a ++ requests b)%list.
Proof.
  induction a as [|e a IH]; simpl; [reflexivity|].
  destruct e as [| [] | |]; simpl; now rewrite IH.
Qed.

(** What one [getline] takes off the lines still ahead. *)
Lemma lines_ahead_step (i : istream) :
  readable i -> eofbit i = false ->
  lines_ahead i
  = ((if is_empty (fst (getline i)) then [] else [fst (getline i)])
       ++ lines_ahead (snd (getline i)))%list.
Proof.
  intros Hr He. unfold lines_ahead, getline, readable in *.
  rewrite He in *. simpl.
  destruct (failbit i); [now discriminate Hr|].
  unfold nonempty_lines. rewrite lines_read_line.
  destruct (read_line (pending i)) as [[l r] e]. simpl.
  destruct (is_empty l); simpl; destruct e; reflexivity.
Qed.

Section Relay.

Context {C : Type} `{IPKCPClient C}.

(** The loop rule for properties of the whole process state. *)
Lemma communicate_rule (Inv Fin : Proc C -> Prop) :
  (forall p, Inv p -> get_state (client p) <> UP -> Fin p) ->
  (forall p p', get_state (client p) = UP -> Inv p ->
                iteration p = (Continue, p') -> Inv p') ->
  (forall p p', get_state (client p) = UP -> Inv p ->
                iteration p = (Break, p') -> Fin p') ->
  forall fuel p p', Inv p -> communicate fuel p = Some p' -> Fin p'.
Proof.
  intros Hout Hgo Hstop.
  induction fuel as [|fuel IH]; intros p p' Hinv; simpl;
    destruct (state_eqb_spec (get_state (client p)) UP) as [Hup|Hup];
    try discriminate; try (intros [= <-]; now apply Hout).
  destruct (iteration p) as [[|] p1] eqn:Ei.
  - apply IH. now apply Hgo with p.
  - intros [= <-]. now apply Hstop with p.
Qed.


(** What one iteration adds to the requests. *)
Lemma iteration_requests (p p' : Proc C) (f : Flow) :
  iteration p = (f, p') ->
  cin p' = cin_after p
  /\ sigint p' = tl (sigint p)
  /\ (cancelled p = true /\ f = Break
      /\ requests (log p') = requests (log p)
      /\ (exists st status,
             log p' = (log p ++ [Call Disconnect st; Stdout status])%list)
      \/ cancelled p = false /\ quit p' = false
         /\ (undisconnected (log p) -> undisconnected (log p'))
         /\ (is_empty (line_read p) = true /\ f = Continue
             /\ requests (log p') = requests (log p)
             \/ is_empty (line_read p) = false
                /\ requests (log p')
                   = (requests (log p) ++ [line_read p])%list)).
Proof.
  rewrite iteration_eq. cbv zeta. unfold asked.
  destruct (cancelled p).
  { intros E; inversion E; subst; simpl. repeat split. left.
    rewrite requests_app. simpl. rewrite app_nil_r. repeat split; eauto. }
  destruct (is_empty (line_read p)).
  { intros E; inversion E; subst; simpl. repeat split. right.
    repeat split; auto. }
  destruct (_ <? 0); [|destruct (is_empty _)];
    intros E; inversion E; subst; simpl; repeat split; right;
    (split; [reflexivity|]); (split; [reflexivity|]);
    (split; [intros Hu; repeat apply undisconnected_app; auto; reflexivity|]);
    right; (split; [reflexivity|]);
    rewrite ?requests_app; simpl; rewrite ?app_nil_r; reflexivity.
Qed.

Lemma uncancelled_line (p : Proc C) :
  readable (cin p) -> cancelled p = false ->
  lines_ahead (cin p)
  = ((if is_empty (line_read p) then [] else [line_read p])
       ++ lines_ahead (cin_after p))%list
  /\ readable (cin_after p).
Proof.
  intros Hr Hc. unfold cancelled in Hc.
  apply orb_false_iff in Hc. destruct Hc as [Hc _].
  apply orb_false_iff in Hc. destruct Hc as [He _].
  unfold line_read, cin_after. rewrite He. unfold eof in He.
  split; [now apply lines_ahead_step | now apply getline_consumes].
Qed.

Lemma relays_iteration (input : string) (p p' : Proc C) (f : Flow) :
  relays input p ->
  iteration p = (f, p') ->
  (exists rest, nonempty_lines input = (requests (log p') ++ rest)%list)
  /\ (f = Continue -> relays input p').
Proof.
  intros [Hr Hall] Hi.
  destruct (iteration_requests p p' f Hi) as (Hcin & _ & Hcase).
  destruct Hcase as [(Hc & -> & Hreq & _) | (Hc & _ & _ & Hline)].
  - split; [|discriminate]. rewrite Hreq. eauto.
  - destruct (uncancelled_line p Hr Hc) as [Hahead Hr'].
    assert (nonempty_lines input
            = (requests (log p') ++ lines_ahead (cin p'))%list) as Hall'.
    { rewrite Hall, Hahead, Hcin.
      destruct Hline as [(-> & _ & ->) | (-> & ->)]; simpl; [reflexivity|].
      now rewrite <- app_assoc. }
    split; [eauto|]. intros _. split; [now rewrite Hcin | exact Hall'].
Qed.

Lemma entering_relays (o : Options) (input : string) (interrupts : list bool) :
  relays input (entering o input interrupts).
Proof.
  split; [unfold readable; simpl; discriminate | reflexivity].
Qed.

(** The requests of a run in terms of the loop it contains, if any. *)
Lemma main_requests (argv : list string) (input : string)
    (interrupts : list bool) :
  exists r,
    main argv input interrupts = Some r
    /\ (requests (events r) = [] /\ undisconnected (events r)
        \/ exists o p',
            communicate (enough input) (entering o input interrupts) = Some p'
            /\ requests (events r) = requests (log p')
            /\ (forall st, In (Call Disconnect st) (events r) ->
                           In (Call Disconnect st) (log p'))).
Proof.
  unfold main. destruct (command_line argv) as [o|text].
  2:{ eexists. split; [reflexivity|]. now left. }
  rewrite run_session_eq.
  destruct (state_eqb _ ERRORED).
  { eexists. split; [reflexivity|]. now left. }
  destruct (negb _ || _)%bool.
  { eexists. split; [reflexivity|]. now left. }
  destruct (entering_returns o input interrupts) as [p' Hp']. rewrite Hp'.
  simpl. eexists. split; [reflexivity|]. right. exists o, p'.
  split; [exact Hp'|]. unfold finish.
  destruct (negb _); simpl; [|auto].
  rewrite requests_app. simpl. rewrite app_nil_r. split; [reflexivity|].
  intros st Hin. apply in_app_or in Hin.
  destruct Hin as [Hin | [Hx | []]]; [exact Hin | discriminate].
Qed.

Lemma main_requests_are_lines (argv : list string) (input : string)
    (interrupts : list bool) :
  exists r,
    main argv input interrupts = Some r
    /\ exists rest, nonempty_lines input = (requests (events r) ++ rest)%list.
Proof.
  destruct (main_requests argv input interrupts)
    as (r & Hr & [[Hnone _] | (o & p' & Hp' & Hreq & _)]);
    exists r; (split; [exact Hr|]); [rewrite Hnone; simpl; eauto|].
  rewrite Hreq.
  apply (communicate_rule
           (relays input)
           (fun q => exists rest,
                nonempty_lines input = (requests (log q) ++ rest)%list))
    with (fuel := enough input) (p := entering o input interrupts);
    [ | | | apply entering_relays | exact Hp' ].
  - intros q [_ Hall] _. eauto.
  - intros q q' _ Hq Hi. now apply (relays_iteration input q q' Continue).
  - intros q q' _ Hq Hi. now apply (relays_iteration input q q' Break).
Qed.

Lemma main_requests_complete (argv : list string) (input : string)
    (interrupts : list bool) (r : Outcome C) :
  main argv input interrupts = Some r ->
  undisturbed interrupts ->
  (exists st, In (Call Disconnect st) (events r)) ->
  requests (events r) = nonempty_lines input.
Proof.
  intros Hr.
  intros Hcalm [st Hdis].
  destruct (main_requests argv input interrupts)
    as (r' & Hr' & [[_ Hnone] | (o & p' & Hp' & Hreq & Hin)]);
    rewrite Hr in Hr'; injection Hr' as <-.
  { exfalso. unfold undisconnected in Hnone.
    rewrite forallb_forall in Hnone. specialize (Hnone _ Hdis).
    discriminate. }
  rewrite Hreq. specialize (Hin st Hdis).
  apply (communicate_rule
           (fun q => relays input q /\ calm q)
           (fun q => (exists st, In (Call Disconnect st) (log q)) ->
                     requests (log q) = nonempty_lines input))
    with (fuel := enough input) (p := entering o input interrupts) (p' := p');
    [ | | | | exact Hp' | eauto ].
  - intros q [_ (_ & _ & Hu)] _ [st' Hst']. exfalso.
    unfold undisconnected in Hu. rewrite forallb_forall in Hu.
    specialize (Hu _ Hst'). discriminate.
  - intros q q' _ [Hq (Hquit & Hsig & Hu)] Hi.
    split; [now apply (relays_iteration input q q' Continue)|].
    destruct (iteration_requests q q' Continue Hi) as (_ & Hs & Hcase).
    destruct Hcase as [(_ & Hx & _) | (_ & Hq' & Hu' & _)]; [discriminate|].
    repeat split; auto. rewrite Hs. unfold undisturbed in *.
    destruct (sigint q); [constructor | now inversion Hsig].
  - intros q q' _ [[Hr' Hall] (Hquit & Hsig & Hu)] Hi [st' Hst'].
    destruct (iteration_requests q q' Break Hi) as (_ & _ & Hcase).
    destruct Hcase as [(Hc & _ & Hreq' & _) | (_ & _ & Hu' & _)].
    + rewrite Hreq', Hall.
      assert (eofbit (cin q) = true) as He.
      { unfold cancelled in Hc. rewrite Hquit in Hc.
        assert (hd false (sigint q) = false) as Hh.
        { unfold undisturbed in Hsig.
          destruct (sigint q); [reflexivity | now inversion Hsig]. }
        rewrite Hh in Hc. unfold eof in Hc.
        destruct (eofbit (cin q)); [reflexivity | discriminate]. }
      unfold lines_ahead. rewrite He. now rewrite app_nil_r.
    + exfalso. specialize (Hu' Hu). unfold undisconnected in Hu'.
      rewrite forallb_forall in Hu'. specialize (Hu' _ Hst'). discriminate.
  - split; [apply entering_relays|].
    repeat split; auto.
Qed.


(** X9.  No line is lost, repeated or reordered: the requests of a run are,
    in order, the first so many of the non-empty lines of the input.  When
    no interrupt is handled and the run gets as far as [disconnect], they
    are all of them. *)
Theorem requests_are_the_input_lines
    (argv : list string) (input : string) (interrupts : list bool) :
  exists r,
    main argv input interrupts = Some r
    /\ (exists rest,
          nonempty_lines input = (requests (events r) ++ rest)%list)
    /\ (undisturbed interrupts ->
        (exists st, In (Call Disconnect st) (events r)) ->
        requests (events r) = nonempty_lines input).
Proof.
  destruct (main_requests_are_lines argv input interrupts)
    as (r & Hr & Hprefix).
  exists r. split; [exact Hr|]. split; [exact Hprefix|].
  exact (main_requests_complete argv input interrupts r Hr).
Qed.

(** X10.  A request is always one whole line: no run sends an empty text or
    a text with a line feed in it. *)
Theorem requests_are_whole_nonempty_lines
    (argv : list string) (input : string) (interrupts : list bool) :
  exists r,
    main argv input interrupts = Some r
    /\ forall text,
        In text (requests (events r)) ->
        text <> "" /\ has_newline text = false.
Proof.
  destruct (main_requests_are_lines argv input interrupts)
    as (r & Hr & rest & Hall).
  exists r. split; [exact Hr|]. intros text Hin.
  assert (In text (nonempty_lines input)) as Hline.
  { rewrite Hall. apply in_or_app. now left. }
  unfold nonempty_lines in Hline. apply filter_In in Hline.
  destruct Hline as [Hl Hne]. split.
  - intros ->. discriminate.
  - pose proof (lines_no_newline input) as Hno.
    rewrite Forall_forall in Hno. now apply Hno.
Qed.

Lemma before_interrupt_head (k : nat) (p : Proc C) :
  before_interrupt k p ->
  cancelled p = false ->
  before_interrupt (k - 1) (mkProc (client p) (cin p) (quit p)
                              (tl (sigint p)) (log p))
  /\ (List.length (requests (log p)) + 1 <= k)%nat.
Proof.
  intros (j & later & Hs & Hk) Hc.
  destruct j as [|j].
  { exfalso. unfold cancelled in Hc. rewrite Hs in Hc. simpl in Hc.
    now rewrite orb_true_r in Hc. }
  split; [|lia]. exists j, later. simpl. rewrite Hs. simpl.
  split; [reflexivity | lia].
Qed.

(** X11.  An interrupt stops the flow of requests: if SIGINT is handled no
    later than just before check number [k + 1], the run sends at most [k]
    requests. *)
Theorem interrupt_bounds_requests
    (argv : list string) (input : string) (k : nat) (later : list bool) :
  exists r,
    main argv input (repeat false k ++ true :: later) = Some r
    /\ (List.length (requests (events r)) <= k)%nat.
Proof.
  destruct (main_requests argv input (repeat false k ++ true :: later))
    as (r & Hr & [[Hnone _] | (o & p' & Hp' & Hreq & _)]);
    exists r; (split; [exact Hr|]); [rewrite Hnone; simpl; lia|].
  rewrite Hreq.
  apply (communicate_rule
           (before_interrupt k)
           (fun q => (List.length (requests (log q)) <= k)%nat))
    with (fuel := enough input)
         (p := entering o input (repeat false k ++ true :: later));
    [ | | | | exact Hp' ].
  - intros q (j & l & _ & Hk) _. lia.
  - intros q q' _ Hq Hi.
    destruct (iteration_requests q q' Continue Hi) as (_ & Hs & Hcase).
    destruct Hcase as [(_ & Hx & _) | (Hc & _ & _ & Hline)]; [discriminate|].
    destruct Hq as (j & l & Hsig & Hk).
    destruct j as [|j].
    { exfalso. unfold cancelled in Hc. rewrite Hsig in Hc. simpl in Hc.
      now rewrite orb_true_r in Hc. }
    exists j, l. rewrite Hs, Hsig. simpl. split; [reflexivity|].
    destruct Hline as [(_ & _ & ->) | (_ & ->)];
      rewrite ?length_app; simpl; lia.
  - intros q q' _ Hq Hi.
    destruct (iteration_requests q q' Break Hi) as (_ & _ & Hcase).
    destruct Hq as (j & l & Hsig & Hk).
    destruct Hcase as [(_ & _ & -> & _) | (Hc & _ & _ & Hline)]; [lia|].
    destruct j as [|j].
    { exfalso. unfold cancelled in Hc. rewrite Hsig in Hc. simpl in Hc.
      now rewrite orb_true_r in Hc. }
    destruct Hline as [(_ & _ & ->) | (_ & ->)];
      rewrite ?length_app; simpl; lia.
  - exists k, later. simpl. split; [reflexivity | lia].
Qed.

Lemma communicate_more_fuel (fuel : nat) :
  forall (p p' : Proc C),
    communicate fuel p = Some p' ->
    forall more, (fuel <= more)%nat -> communicate more p = Some p'.
Proof.
  induction fuel as [|fuel IH]; intros p p' Hrun more Hle.
  - simpl in Hrun.
    destruct (state_eqb_spec (get_state (client p)) UP) as [|Hn];
      [discriminate|].
    injection Hrun as <-. now apply communicate_not_up.
  - destruct more as [|more]; [lia|]. simpl in *.
    destruct (state_eqb (get_state (client p)) UP); [|exact Hrun].
    destruct (iteration p) as [[|] p1]; [|exact Hrun].
    apply (IH _ _ Hrun). lia.
Qed.

(** X12.  The loop always ends, whatever the server and the interrupts do:
    from a state whose input has [n] bytes left it takes at most [n + 2]
    iterations, and allowing more changes nothing. *)
Theorem loop_ends_within_input_length (p : Proc C) :
  readable (cin p) ->
  exists p',
    forall fuel,
      (left_to_read (cin p) < fuel)%nat -> communicate fuel p = Some p'.
Proof.
  intros Hr.
  destruct (communicate_returns (S (left_to_read (cin p))) p Hr) as [p' Hp'];
    [lia|].
  exists p'. intros fuel Hlt.
  apply (communicate_more_fuel _ _ _ Hp'). lia.
Qed.

(** X13.  With a server that answers every request and no interrupt, the
    program relays the whole input: every non-empty line is sent, in order,
    then [disconnect] is called, and (with [disconnect] reaching [DOWN]) the
    exit code is [EXIT_SUCCESS]. *)
Theorem answering_server_gets_every_line
    (argv : list string) (o : Options) (input : string)
    (interrupts : list bool) :
  always_answers ->
  disconnect_reaches_down ->
  command_line argv = Accepted o ->
  get_state (created o) <> ERRORED ->
  fst (connect (created o)) = true ->
  get_state (snd (connect (created o))) = UP ->
  undisturbed interrupts ->
  exists r,
    main argv input interrupts = Some r
    /\ requests (events r) = nonempty_lines input
    /\ (exists st, In (Call Disconnect st) (events r))
    /\ exit_code r = EXIT_SUCCESS.
Proof.
  intros Hserver Hbye Hcl Hbuilt Hok Hup Hcalm.
  destruct (main_returns argv input interrupts) as [r Hr].
  exists r. split; [exact Hr|].
  assert ((exists st, In (Call Disconnect st) (events r))
          /\ exit_code r = EXIT_SUCCESS) as [Hdis Hcode].
  { unfold main in Hr. rewrite Hcl, run_session_eq in Hr.
    destruct (state_eqb_spec (get_state (created o)) ERRORED) as [He|_];
      [contradiction|].
    rewrite Hok, Hup in Hr. cbn [negb orb state_eqb] in Hr.
    destruct (communicate (enough input) (entering o input interrupts))
      as [p'|] eqn:Hp'; [|discriminate].
    simpl in Hr. injection Hr as <-.
    assert ((exists st, In (Call Disconnect st) (log p'))
            /\ get_state (client p') = DOWN) as [Hd Hdown].
    { apply (communicate_rule
               (fun q => get_state (client q) = UP)
               (fun q => (exists st, In (Call Disconnect st) (log q))
                         /\ get_state (client q) = DOWN))
        with (fuel := enough input) (p := entering o input interrupts);
        [ | | | exact Hup | exact Hp' ].
      - intros q Hq Hn. contradiction.
      - intros q q' Hq _. rewrite iteration_eq. cbv zeta.
        destruct (Hserver (client q) (line_read q) Hq) as (_ & _ & _ & Hst).
        repeat match goal with
               | |- context [if ?b then _ else _] => destruct b
               end; intros E; inversion E; subst; simpl; auto.
      - intros q q' Hq _. rewrite iteration_eq. cbv zeta.
        destruct (Hserver (client q) (line_read q) Hq) as (Hs & _ & Hre & _).
        destruct (cancelled q).
        { intros E; inversion E; subst; simpl. split.
          - exists (get_state (client q)). apply in_or_app. right. now left.
          - now apply Hbye. }
        destruct (is_empty (line_read q)); [discriminate|].
        apply Z.ltb_ge in Hs. rewrite Hs, Hre. discriminate. }
    unfold finish. rewrite Hdown. simpl. auto. }
  split; [|auto].
  now apply (main_requests_complete argv input interrupts r).
Qed.

End Relay.

(** ** Further concrete runs *)

Lemma echo_always_answers : @always_answers _ Echo.client.
Proof.
  intros s text. simpl. unfold Echo.e_send, Echo.e_recv. intros ->. simpl.
  repeat split; auto. lia.
Qed.

Lemma echo_disconnect : @disconnect_reaches_down _ Echo.client.
Proof.
  intros s. simpl. unfold Echo.e_disconnect. intros ->. simpl. auto.
Qed.

(** X2 at a command line without [-p]. *)
Lemma first_failing_check_decides_witness :
  ~ In Unrecognised (getopt_scan (tl Sample.no_port_args))
  /\ command_line Sample.no_port_args = Rejected port_message.
Proof.
  assert (~ In Unrecognised (getopt_scan (tl Sample.no_port_args))) as Hno.
  { vm_compute. intros [Hx | [Hx | []]]; discriminate. }
  split; [exact Hno|].
  pose proof (first_failing_check_decides Sample.no_port_args Hno) as T.
  cbv zeta in T. destruct T as (_ & T & _).
  apply T; [discriminate | reflexivity].
Defined.

(** X12 at the loop state that has the line [abc] ahead. *)
Lemma loop_ends_within_input_length_witness :
  let ops := Scripted.client Sample.shouting in
  let p := Sample.after_connect Sample.shouting ("abc" ++ endl) [] in
  readable (cin p)
  /\ exists p',
      forall fuel,
        (left_to_read (cin p) < fuel)%nat ->
        @communicate _ ops fuel p = Some p'.
Proof.
  intros ops p.
  assert (readable (cin p)) as Hr by (unfold readable; simpl; discriminate).
  split; [exact Hr|].
  exact (@loop_ends_within_input_length _ ops p Hr).
Defined.

(** X13 at an input of two lines with an empty one between them. *)
Lemma answering_server_gets_every_line_witness :
  let input := "a" ++ endl ++ endl ++ "b" ++ endl in
  nonempty_lines input = ["a"; "b"]
  /\ exists r,
      @main _ Echo.client Sample.tcp_args input [] = Some r
      /\ requests (events r) = nonempty_lines input
      /\ (exists st, In (Call Disconnect st) (events r))
      /\ exit_code r = EXIT_SUCCESS.
Proof.
  intros input. split; [reflexivity|].
  apply (@answering_server_gets_every_line _ Echo.client Sample.tcp_args
           Sample.tcp_options input []
           echo_always_answers echo_disconnect);
    try reflexivity.
  - simpl. discriminate.
  - constructor.
Defined.

(** The echoing session at work: each line comes back, the empty one is
    skipped. *)
Example echo_session_run :
  option_map (fun r => (exit_code r, events r))
    (@main _ Echo.client Sample.tcp_args
       ("a" ++ endl ++ endl ++ "b" ++ endl) [])
  = Some (EXIT_SUCCESS,
          [Construct 2023 "localhost" SOCK_STREAM; Call Connect INIT;
           Call (Send "a") UP; Call Recv UP; Stdout ("> a" ++ endl);
           Call (Send "b") UP; Call Recv UP; Stdout ("> b" ++ endl);
           Call Disconnect UP; Stdout ("BYE" ++ endl)]).
Proof. reflexivity. Qed.

Example lines_examples :
  lines ("a" ++ endl ++ endl ++ "b") = ["a"; ""; "b"]
  /\ lines ("a" ++ endl) = ["a"; ""]
  /\ lines "" = [""]
  /\ nonempty_lines (endl ++ "a" ++ endl ++ endl) = ["a"].
Proof. repeat split. Qed.

(** What ends up on standard error when [getopt] returns ['?']. *)
Example complaint_examples :
  command_line ["./ipkcpc"; "-h"; "a"; "-x"]
  = Rejected ("./ipkcpc: invalid option -- 'x'" ++ endl ++ usage ++ endl)
  /\ command_line ["./ipkcpc"; "-p"; "1"; "-h"]
     = Rejected ("./ipkcpc: option requires an argument -- 'h'" ++ endl
                 ++ usage ++ endl)
  /\ getopt_complaints ["-xy"; "-m"]
     = [InvalidOption "x"; InvalidOption "y"; MissingArgument "m"].
Proof. repeat split. Qed.

(** X1 at a command line with the unknown option [-x]. *)
Lemma getopt_complaint_precedes_usage_witness :
  let ops := Scripted.client Sample.shouting in
  let argv := ["./ipkcpc"; "-h"; "a"; "-x"] in
  In Unrecognised (getopt_scan (tl argv))
  /\ exists k rest,
      getopt_complaints (tl argv) = k :: rest
      /\ @main _ ops argv "" []
         = Some (mkOutcome EXIT_FAILURE
                   [Stderr (complaint_text (hd "" argv) k ++ usage ++ endl)]
                   None).
Proof.
  intros ops argv.
  assert (In Unrecognised (getopt_scan (tl argv))) as Hin
      by (vm_compute; auto).
  split; [exact Hin|].
  exact (proj1 (@getopt_complaint_precedes_usage _ ops argv "" []) Hin).
Defined.
